(** * Arithmetic compiler simulator: lexer, parser, semantic tables and
    three-address code (compiler_simulator.py)

    Shallow embedding of the four phases and of the facade that chains
    them, followed by the properties of the pipeline.

    Conventions of the embedding:
    - a Python [str] is the list of its code points ([char := N]);
    - the interpreter's built-ins [str.isdigit], [str.isspace] and [int]
      are parameters of the development (section variables), so every
      general statement holds whatever the Unicode tables are; [int]
      answers [None] where CPython raises [ValueError];
    - a raised exception is a value [Raise e]; the loops that are not
      structurally recursive run on fuel, and the fuel the entry points
      provide is shown to be enough. *)

From Stdlib Require Import String Ascii DecimalString DecimalZ DecimalN.
From stdpp Require Import gmap list.

Local Open Scope list_scope.

(** ** Python strings *)

Abbreviation char := N.
Abbreviation str := (list N).

(** A source literal (Basic Latin) as a Python string. *)
Definition py (s : string) : str :=
  map N_of_ascii (list_ascii_of_string s).

(** [str(n)] for an [int]: decimal digits, with a leading minus sign. *)
Definition str_of_Z (z : Z) : str :=
  py (NilEmpty.string_of_int (Z.to_int z)).

Definition str_of_nat (n : nat) : str := str_of_Z (Z.of_nat n).

(** [s[inicio:fin]] for [0 <= inicio], [0 <= fin]. *)
Definition slice (s : str) (inicio fin : nat) : str :=
  take (fin - inicio) (drop inicio s).

(** ** Exceptions and results *)

Inductive excepcion : Type :=
| LexerError (position : nat) (character : char)
| ParserError (message : str) (position : option nat)
| ValueError
| KeyError
| IndexError.

(** [LexerError.__init__]: the message handed to [Exception]. *)
Definition LexerError_message (position : nat) (character : char) : str :=
  py "Caracter no reconocido '" ++ [character] ++ py "' en la posici"
     ++ [243%N] ++ py "n " ++ str_of_nat position ++ py ".".

(** [ParserError.__init__]: the position, when there is one, is appended
    to the message. *)
Definition mkParserError (message : str) (position : option nat) : excepcion :=
  match position with
  | Some p =>
      ParserError (message ++ py " en la posici" ++ [243%N] ++ py "n "
                     ++ str_of_nat p ++ py ".") position
  | None => ParserError message position
  end.

Inductive res (A : Type) : Type :=
| Ok (a : A)
| Raise (e : excepcion)
| OutOfFuel.
Arguments Ok {A} a.
Arguments Raise {A} e.
Arguments OutOfFuel {A}.

#[global] Instance res_ret : MRet res := fun A a => Ok a.

#[global] Instance res_bind : MBind res := fun A B k m =>
  match m with
  | Ok a => k a
  | Raise e => Raise e
  | OutOfFuel => OutOfFuel
  end.

(** The messages of the four syntax errors. *)
Definition msg_vacia : str :=
  py "La expresi" ++ [243%N] ++ py "n est" ++ [225%N] ++ py " vac"
     ++ [237%N] ++ py "a".
Definition msg_inesperado : str := py "Token inesperado".
Definition msg_paren : str := py "Se esperaba ')'".
Definition msg_factor : str := py "Factor no v" ++ [225%N] ++ py "lido".

(** ** Tokens *)

Record Token : Type := mkToken {
  tipo : str;
  valor : str;
  posicion : nat
}.

Definition NUMBER : str := py "NUMBER".
Definition PLUS : str := py "PLUS".
Definition MINUS : str := py "MINUS".
Definition MUL : str := py "MUL".
Definition DIV : str := py "DIV".
Definition LPAREN : str := py "LPAREN".
Definition RPAREN : str := py "RPAREN".

(** [Lexer._TIPOS], the class-level table of the one-character tokens. *)
Definition _TIPOS (caracter : char) : option str :=
  if decide (caracter = 43%N) then Some PLUS          (* + *)
  else if decide (caracter = 45%N) then Some MINUS    (* - *)
  else if decide (caracter = 42%N) then Some MUL      (* * *)
  else if decide (caracter = 47%N) then Some DIV      (* / *)
  else if decide (caracter = 40%N) then Some LPAREN   (* ( *)
  else if decide (caracter = 41%N) then Some RPAREN   (* ) *)
  else None.

(** ** AST *)

Inductive ASTNode : Type :=
| NumberNode (valor : Z)
| BinaryOpNode (operador : str) (izquierdo derecho : ASTNode).

(** ** Rows of the semantic tables and the result bundle *)

Record FilaSimbolo : Type := mkFilaSimbolo {
  fs_simbolo : str;
  fs_direccion : str
}.

Record FilaTipo : Type := mkFilaTipo {
  ft_simbolo : str;
  ft_tipo : str
}.

Record Bundle : Type := mkBundle {
  b_tokens : list Token;
  b_ast : ASTNode;
  b_tabla_simbolos : list FilaSimbolo;
  b_tabla_tipos : list FilaTipo;
  b_codigo_tres_direcciones : list str;
  b_resultado : str
}.

(** [Lexer] has no instance attribute; [ArithmeticCompiler] holds a lexer. *)
Record Lexer : Type := mkLexer { }.

Record ArithmeticCompiler : Type := mkArithmeticCompiler {
  _lexer : Lexer
}.

Section Compiler.

(** The interpreter's built-ins. *)
Variable isdigit : char -> bool.
Variable isspace : char -> bool.
Variable int_ : str -> option Z.

(** ** Lexer.tokenize *)

(** The inner [while]: [resto] is [expresion[posicion:]], so that
    [posicion < len(expresion)] is [resto] being non-empty and
    [expresion[posicion]] is its head. *)
Fixpoint digit_run (resto : str) (posicion : nat) : nat :=
  match resto with
  | c :: resto' =>
      if isdigit c then digit_run resto' (S posicion) else posicion
  | [] => posicion
  end.

(** The outer [while], one iteration per unit of fuel. *)
Fixpoint tokenize_loop (fuel : nat) (expresion : str)
    (tokens : list Token) (posicion : nat) : res (list Token) :=
  match fuel with
  | O => OutOfFuel
  | S fuel' =>
      match expresion !! posicion with
      | None => Ok tokens
      | Some caracter =>
          if isdigit caracter then
            let inicio := posicion in
            let posicion := digit_run (drop posicion expresion) posicion in
            let valor := slice expresion inicio posicion in
            tokenize_loop fuel' expresion
              (tokens ++ [mkToken NUMBER valor inicio]) posicion
          else
            match _TIPOS caracter with
            | Some t =>
                tokenize_loop fuel' expresion
                  (tokens ++ [mkToken t [caracter] posicion]) (S posicion)
            | None =>
                if isspace caracter then
                  tokenize_loop fuel' expresion tokens (S posicion)
                else Raise (LexerError posicion caracter)
            end
      end
  end.

Definition tokenize (self : Lexer) (expresion : str) : res (list Token) :=
  tokenize_loop (S (length expresion)) expresion [] 0.

(** ** Parser *)

Section Parser.

(** [self._tokens]; [self._indice] is threaded through the methods, each
    returning the index it leaves behind. *)
Variable _tokens : list Token.

Definition _al_final (_indice : nat) : bool :=
  bool_decide (length _tokens ≤ _indice).

Definition _coincide (tipos : list str) (_indice : nat) : bool :=
  if _al_final _indice then false
  else
    match _tokens !! _indice with
    | Some token => bool_decide (tipo token ∈ tipos)
    | None => false
    end.

Definition _avanzar (_indice : nat) : res (Token * nat) :=
  match _tokens !! _indice with
  | Some token => Ok (token, S _indice)
  | None => Raise IndexError
  end.

(** The three grammar methods and the two [while] loops, one call or
    iteration per unit of fuel. In [_parse_factor] the index is at least 1
    where [_indice - 1] is read, a '(' having been consumed. *)
Fixpoint _parse_expresion (fuel : nat) (_indice : nat) : res (ASTNode * nat) :=
  match fuel with
  | O => OutOfFuel
  | S fuel' =>
      '(nodo, _indice) ← _parse_termino fuel' _indice;
      _parse_expresion_loop fuel' nodo _indice
  end
with _parse_expresion_loop (fuel : nat) (nodo : ASTNode) (_indice : nat)
    : res (ASTNode * nat) :=
  match fuel with
  | O => OutOfFuel
  | S fuel' =>
      if _coincide [PLUS; MINUS] _indice then
        '(token, _indice) ← _avanzar _indice;
        let operador := valor token in
        '(derecho, _indice) ← _parse_termino fuel' _indice;
        _parse_expresion_loop fuel' (BinaryOpNode operador nodo derecho) _indice
      else Ok (nodo, _indice)
  end
with _parse_termino (fuel : nat) (_indice : nat) : res (ASTNode * nat) :=
  match fuel with
  | O => OutOfFuel
  | S fuel' =>
      '(nodo, _indice) ← _parse_factor fuel' _indice;
      _parse_termino_loop fuel' nodo _indice
  end
with _parse_termino_loop (fuel : nat) (nodo : ASTNode) (_indice : nat)
    : res (ASTNode * nat) :=
  match fuel with
  | O => OutOfFuel
  | S fuel' =>
      if _coincide [MUL; DIV] _indice then
        '(token, _indice) ← _avanzar _indice;
        let operador := valor token in
        '(derecho, _indice) ← _parse_factor fuel' _indice;
        _parse_termino_loop fuel' (BinaryOpNode operador nodo derecho) _indice
      else Ok (nodo, _indice)
  end
with _parse_factor (fuel : nat) (_indice : nat) : res (ASTNode * nat) :=
  match fuel with
  | O => OutOfFuel
  | S fuel' =>
      if _coincide [NUMBER] _indice then
        '(token, _indice) ← _avanzar _indice;
        match int_ (valor token) with
        | Some n => Ok (NumberNode n, _indice)
        | None => Raise ValueError
        end
      else if _coincide [LPAREN] _indice then
        '(_, _indice) ← _avanzar _indice;
        '(nodo, _indice) ← _parse_expresion fuel' _indice;
        if negb (_coincide [RPAREN] _indice) then
          posicion ←
            (if negb (_al_final _indice) then
               match _tokens !! _indice with
               | Some token => Ok (posicion token)
               | None => Raise IndexError
               end
             else
               match _tokens !! (_indice - 1) with
               | Some token => Ok (posicion token + 1)
               | None => Raise IndexError
               end);
          Raise (mkParserError msg_paren (Some posicion))
        else
          '(_, _indice) ← _avanzar _indice;
          Ok (nodo, _indice)
      else
        let token :=
          if negb (_al_final _indice) then _tokens !! _indice else None in
        let posicion := posicion <$> token in
        Raise (mkParserError msg_factor posicion)
  end.

(** Fuel for a whole parse: three units per token and three more. *)
Definition parse_fuel : nat := 3 * length _tokens + 3.

Definition parse : res ASTNode :=
  match _tokens with
  | [] => Raise (mkParserError msg_vacia None)
  | _ :: _ =>
      '(nodo, _indice) ← _parse_expresion parse_fuel 0;
      if negb (_al_final _indice) then
        match _tokens !! _indice with
        | Some token => Raise (mkParserError msg_inesperado (Some (posicion token)))
        | None => Raise IndexError
        end
      else Ok nodo
  end.

End Parser.

(** ** construir_tablas_semanticas *)

(** The closure [visitar] updates [simbolos] and [orden] in place: the
    pair is its state. *)
Fixpoint visitar (actual : ASTNode) (st : gmap Z str * list Z)
    : gmap Z str * list Z :=
  match actual with
  | NumberNode v =>
      let '(simbolos, orden) := st in
      match simbolos !! v with
      | None =>
          (<[v := py "dir_" ++ str_of_nat (size simbolos + 1)]> simbolos,
           orden ++ [v])
      | Some _ => st
      end
  | BinaryOpNode _ izquierdo derecho => visitar derecho (visitar izquierdo st)
  end.

(** [simbolos[valor]], a [KeyError] when the key is absent. *)
Definition getitem (d : gmap Z str) (k : Z) : res str :=
  match d !! k with
  | Some a => Ok a
  | None => Raise KeyError
  end.

(** A list comprehension whose element expression may raise. *)
Fixpoint comprehension {A B : Type} (f : A -> res B) (l : list A)
    : res (list B) :=
  match l with
  | [] => Ok []
  | x :: l' => y ← f x; ys ← comprehension f l'; Ok (y :: ys)
  end.

Definition construir_tablas_semanticas (nodo : ASTNode)
    : res (list FilaSimbolo * list FilaTipo * gmap Z str) :=
  let '(simbolos, orden) := visitar nodo (∅, []) in
  tabla_simbolos ←
    comprehension
      (fun valor =>
         d ← getitem simbolos valor; Ok (mkFilaSimbolo (str_of_Z valor) d))
      orden;
  let tabla_tipos :=
    map (fun valor => mkFilaTipo (str_of_Z valor) (py "entero")) orden in
  Ok (tabla_simbolos, tabla_tipos, simbolos).

(** ** generar_codigo_tres_direcciones *)

(** The closure [generar] appends to [instrucciones] and increments the
    [nonlocal] counter [temporal]: the pair is its state. *)
Fixpoint generar (direcciones : gmap Z str) (actual : ASTNode)
    (st : list str * nat) : res (str * (list str * nat)) :=
  match actual with
  | NumberNode v => d ← getitem direcciones v; Ok (d, st)
  | BinaryOpNode operador izquierdo derecho =>
      '(izquierda, st) ← generar direcciones izquierdo st;
      '(derecha, st) ← generar direcciones derecho st;
      let '(instrucciones, temporal) := st in
      let destino := py "t" ++ str_of_nat temporal in
      let temporal := temporal + 1 in
      let instrucciones :=
        instrucciones ++
          [destino ++ py " = " ++ izquierda ++ py " " ++ operador
             ++ py " " ++ derecha] in
      Ok (destino, (instrucciones, temporal))
  end.

Definition generar_codigo_tres_direcciones (nodo : ASTNode)
    (direcciones : gmap Z str) : res (list str * str) :=
  '(resultado, (instrucciones, _)) ← generar direcciones nodo ([], 1);
  Ok (instrucciones, resultado).

(** ** ArithmeticCompiler *)

Definition ArithmeticCompiler_init : ArithmeticCompiler :=
  mkArithmeticCompiler mkLexer.

(** [compilar] returns its result together with the object as the call
    leaves it. *)
Definition compilar (self : ArithmeticCompiler) (expresion : str)
    : res Bundle * ArithmeticCompiler :=
  (tokens ← tokenize (_lexer self) expresion;
   ast ← parse tokens;
   '(tabla_simbolos, tabla_tipos, direcciones) ←
     construir_tablas_semanticas ast;
   '(codigo_tres_dir, referencia_resultado) ←
     generar_codigo_tres_direcciones ast direcciones;
   Ok (mkBundle tokens ast tabla_simbolos tabla_tipos codigo_tres_dir
         referencia_resultado),
   self).

End Compiler.

(** ** The built-ins on the Latin-1 block

    [str.isdigit], [str.isspace] and [int] as CPython defines them on the
    code points below 256; [int] is given on what the lexer hands to it,
    a run of [isdigit] characters, with the default limit of 4300 digits. *)

Definition isdigit_latin1 (c : char) : bool :=
  bool_decide (48 ≤ c ≤ 57)%N
  || bool_decide (c = 178%N) || bool_decide (c = 179%N)
  || bool_decide (c = 185%N).

Definition isspace_latin1 (c : char) : bool :=
  bool_decide (9 ≤ c ≤ 13)%N || bool_decide (28 ≤ c ≤ 32)%N
  || bool_decide (c = 133%N) || bool_decide (c = 160%N).

Fixpoint decimal_value (acc : Z) (s : str) : option Z :=
  match s with
  | [] => Some acc
  | c :: s' =>
      if bool_decide (48 ≤ c ≤ 57)%N
      then decimal_value (10 * acc + (Z.of_N c - 48)) s'
      else None
  end.

Definition int_latin1 (s : str) : option Z :=
  match s with
  | [] => None
  | _ :: _ =>
      if bool_decide (length s ≤ 4300) then decimal_value 0 s else None
  end.

Definition tokenize_latin1 : Lexer -> str -> res (list Token) :=
  tokenize isdigit_latin1 isspace_latin1.

Definition compilar_latin1 : ArithmeticCompiler -> str -> res Bundle * ArithmeticCompiler :=
  compilar isdigit_latin1 isspace_latin1 int_latin1.

(** The call [ArithmeticCompiler().compilar(expresion)]. *)
Definition compile (expresion : string) : res Bundle :=
  fst (compilar_latin1 ArithmeticCompiler_init (py expresion)).


(** ** Notions the statements are written with *)

(** The literal values of an AST in reading order (left child first). *)
Fixpoint hojas (nodo : ASTNode) : list Z :=
  match nodo with
  | NumberNode v => [v]
  | BinaryOpNode _ izquierdo derecho => hojas izquierdo ++ hojas derecho
  end.

(** The number of [BinaryOpNode]s of an AST. *)
Fixpoint num_binop (nodo : ASTNode) : nat :=
  match nodo with
  | NumberNode _ => 0
  | BinaryOpNode _ izquierdo derecho =>
      S (num_binop izquierdo + num_binop derecho)
  end.

(** What [visitar] does at one leaf. *)
Definition registrar (st : gmap Z str * list Z) (v : Z)
    : gmap Z str * list Z :=
  visitar (NumberNode v) st.

(** The address [dir_k]. *)
Definition dir (k : nat) : str := py "dir_" ++ str_of_nat k.

(** The state of [visitar] is coherent: [orden] has no repetition and
    [simbolos] maps its k-th value (from 0) to [dir_(k+1)], and nothing
    else. *)
Definition tablas_inv (st : gmap Z str * list Z) : Prop :=
  NoDup st.2 ∧ size st.1 = length st.2 ∧
  ∀ v a, st.1 !! v = Some a ↔ ∃ k, st.2 !! k = Some v ∧ a = dir (S k).

(** Positions strictly increase along a token list. *)
Definition posiciones_crecientes (tokens : list Token) : Prop :=
  ∀ i j ti tj, tokens !! i = Some ti → tokens !! j = Some tj → i < j →
    posicion ti < posicion tj.

(** The text of a token is what the source holds at its position. *)
Definition texto_en (expresion : str) (t : Token) : Prop :=
  slice expresion (posicion t) (posicion t + length (valor t)) = valor t.

(** Tokens laid out from [lo] on, one after the other, each non-empty and
    equal to the text at its position. *)
Fixpoint bien_situados (expresion : str) (lo : nat) (tokens : list Token)
    : Prop :=
  match tokens with
  | [] => True
  | t :: ts =>
      lo ≤ posicion t ∧ valor t ≠ [] ∧ texto_en expresion t ∧
      bien_situados expresion (posicion t + length (valor t)) ts
  end.

Section LexerNotions.

Variable isdigit : char -> bool.
Variable isspace : char -> bool.

(** Length of the run of digits a string starts with. *)
Fixpoint run_len (resto : str) : nat :=
  match resto with
  | c :: resto' => if isdigit c then S (run_len resto') else 0
  | [] => 0
  end.

(** Number of maximal runs of digits; [previo] tells whether the
    character before [s] is a digit. *)
Fixpoint digit_runs (previo : bool) (s : str) : nat :=
  match s with
  | [] => 0
  | c :: s' =>
      (if isdigit c && negb previo then 1 else 0) + digit_runs (isdigit c) s'
  end.

(** A character the lexer has a rule for. *)
Definition reconocido (c : char) : bool :=
  isdigit c || bool_decide (is_Some (_TIPOS c)) || isspace c.

End LexerNotions.

(** ** formatear_tokens and formatear_ast *)

(** [sep.join(partes)]. *)
Fixpoint join (sep : str) (partes : list str) : str :=
  match partes with
  | [] => []
  | p :: ps =>
      match ps with
      | [] => p
      | _ :: _ => p ++ sep ++ join sep ps
      end
  end.

(** The text appended for one token. *)
Definition formatear_token (token : Token) : str :=
  if decide (tipo token = NUMBER)
  then py "<" ++ tipo token ++ py ", " ++ valor token ++ py ">"
  else py "<" ++ tipo token ++ py ">".

Definition formatear_tokens (tokens : list Token) : str :=
  let partes :=
    foldl (fun partes token => partes ++ [formatear_token token]) [] tokens in
  join (py " ") partes.

(** [s * n] for a string [s] and [n >= 0]. *)
Fixpoint str_mul (s : str) (n : nat) : str :=
  match n with
  | O => []
  | S n' => s ++ str_mul s n'
  end.

(** The line feed. *)
Definition nl : str := [10%N].

Fixpoint formatear_ast (nodo : ASTNode) (nivel : nat) : str :=
  let indentacion := str_mul (py "  ") nivel in
  match nodo with
  | NumberNode v =>
      indentacion ++ py "N" ++ [250%N] ++ py "mero(" ++ str_of_Z v ++ py ")"
  | BinaryOpNode operador izquierdo derecho =>
      let resultado := indentacion ++ py "Operador('" ++ operador ++ py "')" ++ nl in
      let resultado := resultado ++ (formatear_ast izquierdo (nivel + 1) ++ nl) in
      let resultado := resultado ++ formatear_ast derecho (nivel + 1) in
      resultado
  end.

(** ** ejecutar_desde_consola *)

(** How a run of the console ends: with the strings it has handed to
    [print], in order, or with an exception that no [except] clause
    catches. [EOFError] is the one [input] raises at the end of the
    input. *)
Inductive salida : Type :=
| Imprime (impreso : list str)
| Propaga (e : excepcion)
| PropagaEOFError
| SinCombustible.

Section Console.

Variable isdigit : char -> bool.
Variable isspace : char -> bool.
Variable int_ : str -> option Z.

(** [entrada] is what [input] does: [Some] of the line it returns, or
    [None] when it raises [EOFError]; the call is before the [try], so
    that exception escapes. The prompt is written by [input] itself, not
    by [print]. *)
Definition ejecutar_desde_consola (entrada : option str) : salida :=
  let compilador := ArithmeticCompiler_init in
  match entrada with
  | None => PropagaEOFError
  | Some expresion =>
      match (compilar isdigit isspace int_ compilador expresion).1 with
      | Raise (LexerError position character) =>
          Imprime [py "Error l" ++ [233%N] ++ py "xico: "
                     ++ LexerError_message position character]
      | Raise (ParserError message _) =>
          Imprime [py "Error sint" ++ [225%N] ++ py "ctico: " ++ message]
      | Raise e => Propaga e
      | OutOfFuel => SinCombustible
      | Ok resultado =>
          Imprime
            ([nl ++ py "=== Tokens ===";
              formatear_tokens (b_tokens resultado);
              nl ++ py "=== AST ===";
              formatear_ast (b_ast resultado) 0;
              nl ++ py "=== Tabla de s" ++ [237%N] ++ py "mbolos ==="]
             ++ map (fun entrada =>
                       py "S" ++ [237%N] ++ py "mbolo: " ++ fs_simbolo entrada
                         ++ py ", Direcci" ++ [243%N] ++ py "n: "
                         ++ fs_direccion entrada)
                  (b_tabla_simbolos resultado)
             ++ [nl ++ py "=== Tabla de tipos ==="]
             ++ map (fun entrada =>
                       py "S" ++ [237%N] ++ py "mbolo: " ++ ft_simbolo entrada
                         ++ py ", Tipo: " ++ ft_tipo entrada)
                  (b_tabla_tipos resultado)
             ++ [nl ++ py "=== C" ++ [243%N]
                   ++ py "digo de tres direcciones ==="]
             ++ b_codigo_tres_direcciones resultado
             ++ [py "Resultado final en: " ++ b_resultado resultado])
      end
  end.

End Console.

(** ** The calls of the parser *)

Section Llamadas.

Variable int_ : str -> option Z.
Variable _tokens : list Token.

(** A call of one of the three grammar methods, or an entry of one of
    their two loops, with the index (and the node accumulated so far) it
    starts from. *)
Inductive llamada : Type :=
| LlExpresion (_indice : nat)
| LlExpresionLoop (nodo : ASTNode) (_indice : nat)
| LlTermino (_indice : nat)
| LlTerminoLoop (nodo : ASTNode) (_indice : nat)
| LlFactor (_indice : nat).

Definition respuesta (fuel : nat) (c : llamada) : res (ASTNode * nat) :=
  match c with
  | LlExpresion i => _parse_expresion int_ _tokens fuel i
  | LlExpresionLoop nodo i => _parse_expresion_loop int_ _tokens fuel nodo i
  | LlTermino i => _parse_termino int_ _tokens fuel i
  | LlTerminoLoop nodo i => _parse_termino_loop int_ _tokens fuel nodo i
  | LlFactor i => _parse_factor int_ _tokens fuel i
  end.

(** [invoca c c']: the body of [c] comes to the call [c'].
    [_parse_expresion] calls [_parse_termino] and, once it has returned,
    enters its loop; an iteration of that loop on '+' or '-' calls
    [_parse_termino] after the operator and, once it has returned, goes
    round again with the new node; likewise for [_parse_termino] and
    [_parse_factor]; [_parse_factor] on a '(' calls [_parse_expresion]
    after it. *)
Inductive invoca : llamada -> llamada -> Prop :=
| inv_expresion_termino i :
    invoca (LlExpresion i) (LlTermino i)
| inv_expresion_loop i f nodo j :
    _parse_termino int_ _tokens f i = Ok (nodo, j) ->
    invoca (LlExpresion i) (LlExpresionLoop nodo j)
| inv_loop_termino nodo i :
    _coincide _tokens [PLUS; MINUS] i = true ->
    invoca (LlExpresionLoop nodo i) (LlTermino (S i))
| inv_loop_expresion nodo i token f derecho k :
    _coincide _tokens [PLUS; MINUS] i = true ->
    _tokens !! i = Some token ->
    _parse_termino int_ _tokens f (S i) = Ok (derecho, k) ->
    invoca (LlExpresionLoop nodo i)
      (LlExpresionLoop (BinaryOpNode (valor token) nodo derecho) k)
| inv_termino_factor i :
    invoca (LlTermino i) (LlFactor i)
| inv_termino_loop i f nodo j :
    _parse_factor int_ _tokens f i = Ok (nodo, j) ->
    invoca (LlTermino i) (LlTerminoLoop nodo j)
| inv_loop_factor nodo i :
    _coincide _tokens [MUL; DIV] i = true ->
    invoca (LlTerminoLoop nodo i) (LlFactor (S i))
| inv_loop_termino_loop nodo i token f derecho k :
    _coincide _tokens [MUL; DIV] i = true ->
    _tokens !! i = Some token ->
    _parse_factor int_ _tokens f (S i) = Ok (derecho, k) ->
    invoca (LlTerminoLoop nodo i)
      (LlTerminoLoop (BinaryOpNode (valor token) nodo derecho) k)
| inv_factor_expresion i :
    _coincide _tokens [NUMBER] i = false ->
    _coincide _tokens [LPAREN] i = true ->
    invoca (LlFactor i) (LlExpresion (S i)).

(** [parse] comes to the call [c]: there is a chain of calls from
    [_parse_expresion] at the first token down to [c]. *)
Definition alcanza (c : llamada) : Prop := rtc invoca (LlExpresion 0) c.

End Llamadas.

(** ** Further notions the statements are written with *)

(** The kinds of the four operator tokens. *)
Definition OPERADORES : list str := [PLUS; MINUS; MUL; DIV].

(** The seven kinds of token. *)
Definition TIPOS_TOKEN : list str :=
  [NUMBER; PLUS; MINUS; MUL; DIV; LPAREN; RPAREN].

(** The values of the NUMBER tokens of a token list, in order. *)
Definition numeros (int_ : str -> option Z) (ts : list Token) : list Z :=
  omap (fun t => if decide (tipo t = NUMBER) then int_ (valor t) else None) ts.

(** The texts of the operator tokens of a token list, in order. *)
Definition operadores_de (ts : list Token) : list str :=
  valor <$> filter (fun t => tipo t ∈ OPERADORES) ts.

(** How many tokens of a list have their kind in [tipos]. *)
Definition cuenta_tipos (tipos : list str) (ts : list Token) : nat :=
  length (filter (fun t => tipo t ∈ tipos) ts).

(** The tokens from index [i] up to index [j] (excluded). *)
Definition tramo (tokens : list Token) (i j : nat) : list Token :=
  take (j - i) (drop i tokens).

(** The operator symbols of an AST in the order code is emitted for
    them (children first, left before right). *)
Fixpoint operadores_postorden (nodo : ASTNode) : list str :=
  match nodo with
  | NumberNode _ => []
  | BinaryOpNode operador izquierdo derecho =>
      operadores_postorden izquierdo ++ operadores_postorden derecho
        ++ [operador]
  end.

(** The temporary [tk]. *)
Definition temp (k : nat) : str := py "t" ++ str_of_nat k.

(** An operand of the instruction that defines [t(desde + i)], in code
    whose temporaries start at [desde]: an address of the table, or a
    temporary defined by an earlier instruction. *)
Definition operando_valido (direcciones : gmap Z str) (desde i : nat)
    (x : str) : Prop :=
  (∃ v, direcciones !! v = Some x) ∨
  (∃ k, desde ≤ k < desde + i ∧ x = temp k).

(** The lines [formatear_ast] writes: a node, then its left and right
    subtrees one level deeper. *)
Fixpoint lineas (nodo : ASTNode) (nivel : nat) : list str :=
  match nodo with
  | NumberNode v =>
      [str_mul (py "  ") nivel ++ py "N" ++ [250%N] ++ py "mero("
         ++ str_of_Z v ++ py ")"]
  | BinaryOpNode operador izquierdo derecho =>
      (str_mul (py "  ") nivel ++ py "Operador('" ++ operador ++ py "')")
        :: lineas izquierdo (nivel + 1) ++ lineas derecho (nivel + 1)
  end.

(** The number of nodes of an AST. *)
Fixpoint num_nodos (nodo : ASTNode) : nat :=
  match nodo with
  | NumberNode _ => 1
  | BinaryOpNode _ izquierdo derecho =>
      S (num_nodos izquierdo + num_nodos derecho)
  end.

(** The operator symbols of an AST read from left to right. *)
Fixpoint operadores_inorden (nodo : ASTNode) : list str :=
  match nodo with
  | NumberNode _ => []
  | BinaryOpNode operador izquierdo derecho =>
      operadores_inorden izquierdo ++ operador :: operadores_inorden derecho
  end.

(** A token list whose NUMBER tokens have the values [hs], whose operator
    tokens have the texts [ops], with as many '(' as ')' and no token of
    an unknown kind. *)
Definition bien_formado (int_ : str -> option Z) (ts : list Token)
    (hs : list Z) (ops : list str) : Prop :=
  numeros int_ ts = hs ∧ operadores_de ts = ops ∧
  cuenta_tipos [LPAREN] ts = cuenta_tipos [RPAREN] ts ∧
  Forall (fun t => tipo t ∈ TIPOS_TOKEN) ts.

(** What the parser may answer: a result, a syntax error, or the
    [ValueError] of [int] on the text of some NUMBER token. *)
Definition respuesta_prevista {A : Type} (int_ : str -> option Z)
    (tokens : list Token) (r : res A) : Prop :=
  match r with
  | Ok _ => True
  | Raise (ParserError _ _) => True
  | Raise ValueError =>
      ∃ t, t ∈ tokens ∧ tipo t = NUMBER ∧ int_ (valor t) = None
  | Raise _ => False
  | OutOfFuel => True
  end.

Section LexerShapes.

Variable isdigit : char -> bool.

(** A character that ends up in a token: a digit or one of the six
    operator and parenthesis characters. *)
Definition significativo (c : char) : bool :=
  isdigit c || bool_decide (is_Some (_TIPOS c)).

(** What a token of the lexer looks like in the input [e]: a NUMBER made
    of a non-empty run of digits that no digit follows, or one character
    of [_TIPOS] with the kind the table gives it. *)
Definition token_lexico (e : str) (t : Token) : Prop :=
  (tipo t = NUMBER ∧ valor t ≠ [] ∧
   Forall (fun c => isdigit c = true) (valor t) ∧
   ∀ c, e !! (posicion t + length (valor t)) = Some c → isdigit c = false) ∨
  (∃ c, valor t = [c] ∧ isdigit c = false ∧ _TIPOS c = Some (tipo t)).

End LexerShapes.

(** * Properties *)

(** ** The lexer *)

Section LexerProofs.

Variable isdigit : char -> bool.
Variable isspace : char -> bool.

Local Abbreviation loop := (tokenize_loop isdigit isspace).
Local Abbreviation run_len := (run_len isdigit).

Lemma digit_run_run_len (r : str) (p : nat) :
  digit_run isdigit r p = p + run_len r.
Proof.
  revert p. induction r as [|c r IH]; intros p; simpl; [lia|].
  destruct (isdigit c); [rewrite IH|]; lia.
Qed.

Lemma run_len_le (r : str) : run_len r ≤ length r.
Proof.
  induction r as [|c r IH]; simpl; [lia|]. destruct (isdigit c); lia.
Qed.

Lemma run_len_digits (r : str) :
  Forall (λ c, isdigit c = true) (take (run_len r) r).
Proof.
  induction r as [|c r IH]; simpl; [constructor|].
  destruct (isdigit c) eqn:Hc; simpl; [by constructor | constructor].
Qed.

Lemma run_len_stop (r : str) (c : char) :
  drop (run_len r) r !! 0 = Some c → isdigit c = false.
Proof.
  induction r as [|d r IH]; simpl; [done|].
  destruct (isdigit d) eqn:Hd; simpl; [done|].
  intros [= ->]. done.
Qed.

Lemma drop_S_cons (e : str) (p : nat) (c : char) (r : str) :
  drop p e = c :: r → drop (S p) e = r.
Proof.
  intros H. replace (S p) with (p + 1) by lia.
  by rewrite <- drop_drop, H.
Qed.

Lemma drop_cons_length (e : str) (p : nat) (c : char) (r : str) :
  drop p e = c :: r → p < length e.
Proof.
  intros H. apply (f_equal length) in H. rewrite length_drop in H.
  simpl in H. lia.
Qed.

(** One iteration of the outer loop, read on the rest of the input. *)
Lemma loop_unfold (f : nat) (e : str) (toks : list Token) (p : nat) :
  loop (S f) e toks p =
  match drop p e with
  | [] => Ok toks
  | c :: r =>
      if isdigit c then
        let n := run_len (c :: r) in
        loop f e (toks ++ [mkToken NUMBER (take n (c :: r)) p]) (p + n)
      else
        match _TIPOS c with
        | Some t => loop f e (toks ++ [mkToken t [c] p]) (S p)
        | None =>
            if isspace c then loop f e toks (S p)
            else Raise (LexerError p c)
        end
  end.
Proof.
  cbn [tokenize_loop]. destruct (drop p e) as [|c r] eqn:Hr.
  - apply drop_nil_inv in Hr.
    by rewrite (lookup_ge_None_2 e p).
  - assert (e !! p = Some c) as ->.
    { rewrite <- (Nat.add_0_r p), <- lookup_drop, Hr. done. }
    destruct (isdigit c) eqn:Hc; [|done].
    rewrite digit_run_run_len. unfold slice. rewrite Hr.
    replace (p + run_len (c :: r) - p) with (run_len (c :: r)) by lia.
    done.
Qed.

(** The fuel of [tokenize] is enough: every iteration moves forward. *)
Lemma loop_total (e : str) (f : nat) :
  ∀ p toks, length e - p < f → loop f e toks p ≠ OutOfFuel.
Proof.
  induction f as [|f IH]; intros p toks Hf; [lia|].
  rewrite loop_unfold. destruct (drop p e) as [|c r] eqn:Hr; [done|].
  pose proof (drop_cons_length _ _ _ _ Hr) as Hp.
  destruct (isdigit c) eqn:Hc.
  { apply IH. simpl. rewrite Hc. lia. }
  destruct (_TIPOS c); [apply IH; lia|].
  destruct (isspace c); [apply IH; lia | done].
Qed.

Lemma bien_situados_weaken (e : str) (lo lo' : nat) (ts : list Token) :
  lo' ≤ lo → bien_situados e lo ts → bien_situados e lo' ts.
Proof.
  destruct ts as [|t ts]; simpl; [done|].
  intros Hle (H1 & H2 & H3 & H4). repeat split; [lia | done..].
Qed.

(** Whatever the loop appends is laid out from the current position on. *)
Lemma loop_bien_situados (e : str) (f : nat) :
  ∀ p toks out, loop f e toks p = Ok out →
    ∃ nuevos, out = toks ++ nuevos ∧ bien_situados e p nuevos.
Proof.
  induction f as [|f IH]; intros p toks out H; [done|].
  rewrite loop_unfold in H. destruct (drop p e) as [|c r] eqn:Hr.
  { injection H as <-. exists []. by rewrite app_nil_r. }
  destruct (isdigit c) eqn:Hc.
  { cbv zeta in H. apply IH in H as (nuevos & -> & Hn).
    eexists (_ :: nuevos). split; [by rewrite <- app_assoc|].
    pose proof (run_len_le (c :: r)) as Hle.
    assert (run_len (c :: r) ≠ 0) as Hne by (simpl; rewrite Hc; lia).
    cbn [bien_situados posicion valor]. rewrite length_take_le by done.
    split_and!; [lia | | | done].
    - intros Hnil. apply (f_equal length) in Hnil.
      rewrite length_take_le in Hnil by done. by apply Hne.
    - unfold texto_en, slice. cbn [posicion valor].
      rewrite length_take_le by done. rewrite Hr. f_equal. lia. }
  destruct (_TIPOS c) as [t|].
  { apply IH in H as (nuevos & -> & Hn).
    eexists (_ :: nuevos). split; [by rewrite <- app_assoc|].
    cbn [bien_situados posicion valor length].
    split_and!; [lia | done | | by rewrite Nat.add_1_r].
    unfold texto_en, slice. cbn [posicion valor length]. rewrite Hr.
    replace (p + 1 - p) with 1 by lia. done. }
  destruct (isspace c); [|done].
  apply IH in H as (nuevos & -> & Hn).
  exists nuevos. split; [done|]. eapply bien_situados_weaken; [|done]. lia.
Qed.

Lemma bien_situados_spec (e : str) (ts : list Token) :
  ∀ lo, bien_situados e lo ts →
    posiciones_crecientes ts ∧ Forall (texto_en e) ts ∧
    Forall (λ t, lo ≤ posicion t) ts.
Proof.
  induction ts as [|t ts IH]; intros lo H.
  { split_and!; [|constructor..]. intros i j ti tj Hi. by destruct i. }
  destruct H as (Hlo & Hne & Htx & Hts).
  apply IH in Hts as (Hcr & Hall & Hge).
  assert (0 < length (valor t)) as Hlen by (destruct (valor t); simpl; [done|lia]).
  split_and!.
  - intros i j ti tj Hi Hj Hij. destruct j as [|j]; [lia|].
    simpl in Hj. destruct i as [|i].
    + injection Hi as <-.
      rewrite Forall_lookup in Hge. specialize (Hge _ _ Hj). simpl in Hge. lia.
    + simpl in Hi. apply (Hcr i j); [done..|lia].
  - by constructor.
  - constructor; [done|]. eapply Forall_impl; [done|]. simpl. lia.
Qed.

(** The loop stops at the first character it has no rule for. *)
Lemma loop_first_unrecognised (e : str) (i : nat) (c : char) :
  e !! i = Some c → reconocido isdigit isspace c = false →
  (∀ j d, j < i → e !! j = Some d → reconocido isdigit isspace d = true) →
  ∀ f p toks, p ≤ i → i - p < f → loop f e toks p = Raise (LexerError i c).
Proof.
  intros Hi Hc Hbefore. unfold reconocido in Hc.
  apply orb_false_elim in Hc as [Hc Hsp].
  apply orb_false_elim in Hc as [Hdg Hop].
  apply bool_decide_eq_false in Hop.
  induction f as [|f IH]; intros p toks Hp Hf; [lia|].
  rewrite loop_unfold. destruct (drop p e) as [|c0 r] eqn:Hr.
  { apply drop_nil_inv in Hr. apply lookup_lt_Some in Hi. lia. }
  assert (e !! p = Some c0) as Hp0.
  { rewrite <- (Nat.add_0_r p), <- lookup_drop, Hr. done. }
  destruct (decide (p = i)) as [->|Hne].
  { rewrite Hi in Hp0. injection Hp0 as <-. rewrite Hdg.
    destruct (_TIPOS c) eqn:Ht; [by destruct Hop|]. by rewrite Hsp. }
  destruct (isdigit c0) eqn:Hc0.
  { cbv zeta. apply IH.
    - destruct (decide (p + run_len (c0 :: r) ≤ i)) as [|Hgt]; [done|].
      exfalso. pose proof (run_len_digits (c0 :: r)) as Hall.
      rewrite Forall_lookup in Hall. specialize (Hall (i - p) c).
      rewrite Hall in Hdg; [done|].
      rewrite lookup_take_lt by lia. rewrite <- Hr, lookup_drop.
      by replace (p + (i - p)) with i by lia.
    - simpl. rewrite Hc0. lia. }
  destruct (_TIPOS c0) eqn:Ht0; [apply IH; lia|].
  destruct (isspace c0) eqn:Hs0; [apply IH; lia|].
  assert (reconocido isdigit isspace c0 = true) as Hrec
    by (apply (Hbefore p); [lia | done]).
  unfold reconocido in Hrec. rewrite Hc0, Ht0, Hs0 in Hrec.
  rewrite bool_decide_eq_false_2 in Hrec by (by intros [? ?]). done.
Qed.

Lemma digit_runs_drop_run (r : str) :
  digit_runs isdigit true r = digit_runs isdigit false (drop (run_len r) r).
Proof.
  induction r as [|c r IH]; simpl; [done|].
  destruct (isdigit c) eqn:Hc; simpl; [done|]. by rewrite Hc.
Qed.

Lemma filter_digits_run (r : str) :
  filter (λ c, Is_true (isdigit c)) r =
  take (run_len r) r ++ filter (λ c, Is_true (isdigit c)) (drop (run_len r) r).
Proof.
  induction r as [|c r IH]; simpl; [done|].
  destruct (isdigit c) eqn:Hc; simpl.
  - rewrite filter_cons_True by (by rewrite Hc). by rewrite IH at 1.
  - done.
Qed.

(** On digits and blanks the loop ends well, with one NUMBER token per
    run of digits. *)
Lemma loop_digits_spaces (e : str) :
  (∀ c, isspace c = true → _TIPOS c = None) →
  ∀ f p toks, length e - p < f →
    Forall (λ c, isdigit c || isspace c = true) (drop p e) →
    ∃ nuevos, loop f e toks p = Ok (toks ++ nuevos) ∧
      Forall (λ t, tipo t = NUMBER) nuevos ∧
      length nuevos = digit_runs isdigit false (drop p e) ∧
      concat (valor <$> nuevos) =
        filter (λ c, Is_true (isdigit c)) (drop p e).
Proof.
  intros Hsp. induction f as [|f IH]; intros p toks Hf Hall; [lia|].
  rewrite loop_unfold. destruct (drop p e) as [|c r] eqn:Hr.
  { exists []. rewrite app_nil_r. by split_and!. }
  pose proof (drop_cons_length _ _ _ _ Hr) as Hp.
  destruct (isdigit c) eqn:Hc.
  { cbv zeta. set (n := run_len (c :: r)).
    assert (n = S (run_len r)) as Hn by (unfold n; simpl; by rewrite Hc).
    assert (drop (p + n) e = drop n (c :: r)) as Hdrop
      by (by rewrite <- drop_drop, Hr).
    destruct (IH (p + n) (toks ++ [mkToken NUMBER (take n (c :: r)) p]))
      as (nuevos & Hloop & Hnum & Hlen & Hcat).
    { lia. }
    { rewrite Hdrop. by apply Forall_drop. }
    eexists (_ :: nuevos). rewrite Hloop, <- app_assoc. split_and!.
    - done.
    - by constructor.
    - simpl. rewrite Hlen, Hdrop, Hc. simpl. f_equal.
      rewrite Hn. simpl. by rewrite digit_runs_drop_run.
    - rewrite fmap_cons, concat_cons. cbn [valor].
      rewrite Hcat, Hdrop. by rewrite (filter_digits_run (c :: r)). }
  apply Forall_cons in Hall as [Hc' Hall]. rewrite Hc in Hc'. simpl in Hc'.
  rewrite (Hsp c Hc'), Hc'.
  destruct (IH (S p) toks) as (nuevos & Hloop & Hnum & Hlen & Hcat).
  { lia. }
  { by rewrite (drop_S_cons _ _ _ _ Hr). }
  exists nuevos. rewrite Hloop. split_and!; [done..| |].
  - simpl. rewrite Hc. simpl. by rewrite Hlen, (drop_S_cons _ _ _ _ Hr).
  - rewrite filter_cons_False by (rewrite Hc; intros []).
    by rewrite Hcat, (drop_S_cons _ _ _ _ Hr).
Qed.

End LexerProofs.

(** ** The parser *)

Section ParserProofs.

Variable int_ : str -> option Z.
Variable tokens : list Token.

Local Abbreviation E := (_parse_expresion int_ tokens).
Local Abbreviation EL := (_parse_expresion_loop int_ tokens).
Local Abbreviation T := (_parse_termino int_ tokens).
Local Abbreviation TL := (_parse_termino_loop int_ tokens).
Local Abbreviation F := (_parse_factor int_ tokens).

Lemma _coincide_true (tipos : list str) (i : nat) :
  _coincide tokens tipos i = true →
  ∃ t, tokens !! i = Some t ∧ tipo t ∈ tipos ∧ i < length tokens.
Proof.
  unfold _coincide, _al_final. case_bool_decide; [done|].
  destruct (tokens !! i) as [t|] eqn:Ht; [|done].
  intros Hin%bool_decide_eq_true. exists t. split_and!; [done..|lia].
Qed.

Lemma _coincide_false (tipos : list str) (i : nat) (t : Token) :
  _coincide tokens tipos i = false → tokens !! i = Some t → tipo t ∉ tipos.
Proof.
  unfold _coincide, _al_final. intros H Ht.
  pose proof (lookup_lt_Some _ _ _ Ht).
  rewrite bool_decide_eq_false_2, Ht in H by lia.
  by apply bool_decide_eq_false in H.
Qed.

Lemma E_S (f i : nat) :
  E (S f) i = '(nodo, j) ← T f i; EL f nodo j.
Proof. reflexivity. Qed.

Lemma T_S (f i : nat) :
  T (S f) i = '(nodo, j) ← F f i; TL f nodo j.
Proof. reflexivity. Qed.

Lemma EL_S (f : nat) (nodo : ASTNode) (i : nat) :
  EL (S f) nodo i =
  if _coincide tokens [PLUS; MINUS] i then
    '(token, j) ← _avanzar tokens i;
    '(derecho, k) ← T f j;
    EL f (BinaryOpNode (valor token) nodo derecho) k
  else Ok (nodo, i).
Proof. reflexivity. Qed.

Lemma TL_S (f : nat) (nodo : ASTNode) (i : nat) :
  TL (S f) nodo i =
  if _coincide tokens [MUL; DIV] i then
    '(token, j) ← _avanzar tokens i;
    '(derecho, k) ← F f j;
    TL f (BinaryOpNode (valor token) nodo derecho) k
  else Ok (nodo, i).
Proof. reflexivity. Qed.

Lemma F_S (f i : nat) :
  F (S f) i =
  if _coincide tokens [NUMBER] i then
    '(token, j) ← _avanzar tokens i;
    match int_ (valor token) with
    | Some n => Ok (NumberNode n, j)
    | None => Raise ValueError
    end
  else if _coincide tokens [LPAREN] i then
    '(_, j) ← _avanzar tokens i;
    '(nodo, k) ← E f j;
    if negb (_coincide tokens [RPAREN] k) then
      pos ←
        (if negb (_al_final tokens k) then
           match tokens !! k with
           | Some token => Ok (posicion token)
           | None => Raise IndexError
           end
         else
           match tokens !! (k - 1) with
           | Some token => Ok (posicion token + 1)
           | None => Raise IndexError
           end);
      Raise (mkParserError msg_paren (Some pos))
    else
      '(_, l) ← _avanzar tokens k;
      Ok (nodo, l)
  else
    Raise (mkParserError msg_factor
             (posicion <$>
                (if negb (_al_final tokens i) then tokens !! i else None))).
Proof. reflexivity. Qed.

Lemma _avanzar_Some (i : nat) (t : Token) :
  tokens !! i = Some t → _avanzar tokens i = Ok (t, S i).
Proof. unfold _avanzar. by intros ->. Qed.

(** A successful call leaves the index further on, within the tokens. *)
Lemma parse_progress (f : nat) :
  (∀ i n j, E f i = Ok (n, j) → i < j ≤ length tokens) ∧
  (∀ nodo i n j, i ≤ length tokens → EL f nodo i = Ok (n, j) →
     i ≤ j ≤ length tokens) ∧
  (∀ i n j, T f i = Ok (n, j) → i < j ≤ length tokens) ∧
  (∀ nodo i n j, i ≤ length tokens → TL f nodo i = Ok (n, j) →
     i ≤ j ≤ length tokens) ∧
  (∀ i n j, F f i = Ok (n, j) → i < j ≤ length tokens).
Proof.
  induction f as [|f (IHE & IHEL & IHT & IHTL & IHF)]; [by split_and!|].
  split_and!.
  - intros i n j. rewrite E_S.
    destruct (T f i) as [[n1 j1]| |] eqn:H1; cbn [mbind res_bind]; [|done..].
    intros H. apply IHT in H1. apply IHEL in H; lia.
  - intros nodo i n j Hi. rewrite EL_S.
    destruct (_coincide tokens [PLUS; MINUS] i) eqn:Hco.
    + apply _coincide_true in Hco as (t & Ht & _ & Hlt).
      rewrite (_avanzar_Some _ _ Ht). cbn [mbind res_bind].
      destruct (T f (S i)) as [[n1 j1]| |] eqn:H1; cbn [mbind res_bind]; [|done..].
      intros H. apply IHT in H1. apply IHEL in H; lia.
    + intros [= <- <-]. lia.
  - intros i n j. rewrite T_S.
    destruct (F f i) as [[n1 j1]| |] eqn:H1; cbn [mbind res_bind]; [|done..].
    intros H. apply IHF in H1. apply IHTL in H; lia.
  - intros nodo i n j Hi. rewrite TL_S.
    destruct (_coincide tokens [MUL; DIV] i) eqn:Hco.
    + apply _coincide_true in Hco as (t & Ht & _ & Hlt).
      rewrite (_avanzar_Some _ _ Ht). cbn [mbind res_bind].
      destruct (F f (S i)) as [[n1 j1]| |] eqn:H1; cbn [mbind res_bind]; [|done..].
      intros H. apply IHF in H1. apply IHTL in H; lia.
    + intros [= <- <-]. lia.
  - intros i n j. rewrite F_S.
    destruct (_coincide tokens [NUMBER] i) eqn:Hnum.
    { apply _coincide_true in Hnum as (t & Ht & _ & Hlt).
      rewrite (_avanzar_Some _ _ Ht). cbn [mbind res_bind].
      destruct (int_ (valor t)); [|done]. intros [= <- <-]. lia. }
    destruct (_coincide tokens [LPAREN] i) eqn:Hlp; [|done].
    apply _coincide_true in Hlp as (t & Ht & _ & Hlt).
    rewrite (_avanzar_Some _ _ Ht). cbn [mbind res_bind].
    destruct (E f (S i)) as [[n1 j1]| |] eqn:H1; cbn [mbind res_bind]; [|done..].
    apply IHE in H1.
    destruct (_coincide tokens [RPAREN] j1) eqn:Hrp; cbn [mbind res_bind].
    + apply _coincide_true in Hrp as (t' & Ht' & _ & Hlt').
      rewrite (_avanzar_Some _ _ Ht'). cbn [mbind res_bind]. intros [= <- <-]. lia.
    + destruct (negb (_al_final tokens j1));
        [destruct (tokens !! j1) | destruct (tokens !! (j1 - 1))]; done.
Qed.

(** More fuel does not change a result that was reached. *)
Lemma parse_fuel_mono (f : nat) :
  (∀ i f', f ≤ f' → E f i ≠ OutOfFuel → E f' i = E f i) ∧
  (∀ nodo i f', f ≤ f' → EL f nodo i ≠ OutOfFuel →
     EL f' nodo i = EL f nodo i) ∧
  (∀ i f', f ≤ f' → T f i ≠ OutOfFuel → T f' i = T f i) ∧
  (∀ nodo i f', f ≤ f' → TL f nodo i ≠ OutOfFuel →
     TL f' nodo i = TL f nodo i) ∧
  (∀ i f', f ≤ f' → F f i ≠ OutOfFuel → F f' i = F f i).
Proof.
  induction f as [|f (IHE & IHEL & IHT & IHTL & IHF)]; [by split_and!|].
  split_and!.
  - intros i [|f'] Hf; [lia|]. rewrite !E_S.
    destruct (T f i) as [[n1 j1]| |] eqn:H1; cbn [mbind res_bind]; intros H; [| |done].
    + rewrite (IHT i f'), H1 by (lia || congruence). cbn [mbind res_bind]. apply IHEL; [lia|done].
    + by rewrite (IHT i f'), H1 by (lia || congruence).
  - intros nodo i [|f'] Hf; [lia|]. rewrite !EL_S.
    destruct (_coincide tokens [PLUS; MINUS] i); [|done].
    destruct (_avanzar tokens i) as [[t j]| |]; cbn [mbind res_bind]; [|done..].
    destruct (T f j) as [[n1 j1]| |] eqn:H1; cbn [mbind res_bind]; intros H; [| |done].
    + rewrite (IHT j f'), H1 by (lia || congruence). cbn [mbind res_bind]. apply IHEL; [lia|done].
    + by rewrite (IHT j f'), H1 by (lia || congruence).
  - intros i [|f'] Hf; [lia|]. rewrite !T_S.
    destruct (F f i) as [[n1 j1]| |] eqn:H1; cbn [mbind res_bind]; intros H; [| |done].
    + rewrite (IHF i f'), H1 by (lia || congruence). cbn [mbind res_bind]. apply IHTL; [lia|done].
    + by rewrite (IHF i f'), H1 by (lia || congruence).
  - intros nodo i [|f'] Hf; [lia|]. rewrite !TL_S.
    destruct (_coincide tokens [MUL; DIV] i); [|done].
    destruct (_avanzar tokens i) as [[t j]| |]; cbn [mbind res_bind]; [|done..].
    destruct (F f j) as [[n1 j1]| |] eqn:H1; cbn [mbind res_bind]; intros H; [| |done].
    + rewrite (IHF j f'), H1 by (lia || congruence). cbn [mbind res_bind]. apply IHTL; [lia|done].
    + by rewrite (IHF j f'), H1 by (lia || congruence).
  - intros i [|f'] Hf; [lia|]. rewrite !F_S.
    destruct (_coincide tokens [NUMBER] i); [done|].
    destruct (_coincide tokens [LPAREN] i); [|done].
    destruct (_avanzar tokens i) as [[t j]| |]; cbn [mbind res_bind]; [|done..].
    destruct (E f j) as [[n1 j1]| |] eqn:H1; cbn [mbind res_bind]; intros H; [| |done].
    + by rewrite (IHE j f'), H1 by (lia || congruence).
    + by rewrite (IHE j f'), H1 by (lia || congruence).
Qed.

(** Three units of fuel per remaining token are enough. *)
Lemma parse_fuel_enough (f : nat) :
  (∀ i, i ≤ length tokens → 3 * (length tokens - i) + 3 ≤ f →
     E f i ≠ OutOfFuel) ∧
  (∀ nodo i, i ≤ length tokens → 3 * (length tokens - i) + 1 ≤ f →
     EL f nodo i ≠ OutOfFuel) ∧
  (∀ i, i ≤ length tokens → 3 * (length tokens - i) + 2 ≤ f →
     T f i ≠ OutOfFuel) ∧
  (∀ nodo i, i ≤ length tokens → 3 * (length tokens - i) + 1 ≤ f →
     TL f nodo i ≠ OutOfFuel) ∧
  (∀ i, i ≤ length tokens → 3 * (length tokens - i) + 1 ≤ f →
     F f i ≠ OutOfFuel).
Proof.
  induction f as [|f (IHE & IHEL & IHT & IHTL & IHF)].
  { split_and!; intros; lia. }
  destruct (parse_progress f) as (PE & PEL & PT & PTL & PF).
  split_and!.
  - intros i Hi Hf. rewrite E_S.
    destruct (T f i) as [[n1 j1]| |] eqn:H1; cbn [mbind res_bind]; [|done|].
    + apply PT in H1. apply IHEL; lia.
    + exfalso. apply (IHT i); [lia..|done].
  - intros nodo i Hi Hf. rewrite EL_S.
    destruct (_coincide tokens [PLUS; MINUS] i) eqn:Hco; [|done].
    apply _coincide_true in Hco as (t & Ht & _ & Hlt).
    rewrite (_avanzar_Some _ _ Ht). cbn [mbind res_bind].
    destruct (T f (S i)) as [[n1 j1]| |] eqn:H1; cbn [mbind res_bind]; [|done|].
    + apply PT in H1. apply IHEL; lia.
    + exfalso. apply (IHT (S i)); [lia..|done].
  - intros i Hi Hf. rewrite T_S.
    destruct (F f i) as [[n1 j1]| |] eqn:H1; cbn [mbind res_bind]; [|done|].
    + apply PF in H1. apply IHTL; lia.
    + exfalso. apply (IHF i); [lia..|done].
  - intros nodo i Hi Hf. rewrite TL_S.
    destruct (_coincide tokens [MUL; DIV] i) eqn:Hco; [|done].
    apply _coincide_true in Hco as (t & Ht & _ & Hlt).
    rewrite (_avanzar_Some _ _ Ht). cbn [mbind res_bind].
    destruct (F f (S i)) as [[n1 j1]| |] eqn:H1; cbn [mbind res_bind]; [|done|].
    + apply PF in H1. apply IHTL; lia.
    + exfalso. apply (IHF (S i)); [lia..|done].
  - intros i Hi Hf. rewrite F_S.
    destruct (_coincide tokens [NUMBER] i) eqn:Hnum.
    { apply _coincide_true in Hnum as (t & Ht & _ & Hlt).
      rewrite (_avanzar_Some _ _ Ht). cbn [mbind res_bind]. by destruct (int_ (valor t)). }
    destruct (_coincide tokens [LPAREN] i) eqn:Hlp; [|done].
    apply _coincide_true in Hlp as (t & Ht & _ & Hlt).
    rewrite (_avanzar_Some _ _ Ht). cbn [mbind res_bind].
    destruct (E f (S i)) as [[n1 j1]| |] eqn:H1; cbn [mbind res_bind]; [|done|].
    + destruct (_coincide tokens [RPAREN] j1) eqn:Hrp; cbn [mbind res_bind].
      * apply _coincide_true in Hrp as (t' & Ht' & _ & Hlt').
        by rewrite (_avanzar_Some _ _ Ht').
      * destruct (negb (_al_final tokens j1));
          [destruct (tokens !! j1) | destruct (tokens !! (j1 - 1))]; done.
    + exfalso. apply (IHE (S i)); [lia..|done].
Qed.

(** [parse] always comes to a result. *)
Lemma parse_total : parse int_ tokens ≠ OutOfFuel.
Proof.
  unfold parse. destruct tokens as [|t ts] eqn:Htok; [done|]. rewrite <- Htok.
  destruct (parse_fuel_enough (parse_fuel tokens)) as (HE & _).
  specialize (HE 0). unfold parse_fuel in *.
  destruct (E (3 * length tokens + 3) 0) as [[n j]| |] eqn:H1; cbn [mbind res_bind]; [|done|].
  - destruct (negb (_al_final tokens j)); [|done].
    by destruct (tokens !! j).
  - exfalso. apply HE; [lia..|done].
Qed.

End ParserProofs.

(** ** Strings of numbers *)

Lemma py_inj (s1 s2 : string) : py s1 = py s2 → s1 = s2.
Proof.
  unfold py. intros H.
  rewrite <- (string_of_list_ascii_of_string s1),
          <- (string_of_list_ascii_of_string s2).
  f_equal. revert H.
  generalize (list_ascii_of_string s1) (list_ascii_of_string s2).
  induction l as [|a l IH]; intros [|b l']; simpl; try done.
  intros [= Hab Hl]. f_equal; [|by apply IH].
  by rewrite <- (ascii_N_embedding a), <- (ascii_N_embedding b), Hab.
Qed.

Lemma str_of_Z_inj (a b : Z) : str_of_Z a = str_of_Z b → a = b.
Proof.
  unfold str_of_Z. intros H%py_inj.
  assert (Some (Z.to_int a) = Some (Z.to_int b)) as [= Hab]
    by (by rewrite <- !NilEmpty.isi, H).
  by rewrite <- (DecimalZ.of_to a), <- (DecimalZ.of_to b), Hab.
Qed.

Lemma dir_inj (j k : nat) : dir j = dir k → j = k.
Proof.
  unfold dir, str_of_nat. intros H%app_inv_head%str_of_Z_inj. lia.
Qed.

(** ** The semantic tables *)

Lemma visitar_hojas (nodo : ASTNode) :
  ∀ st, visitar nodo st = foldl registrar st (hojas nodo).
Proof.
  induction nodo as [v|op l IHl r IHr]; intros st; simpl; [done|].
  by rewrite foldl_app, IHl, IHr.
Qed.

Lemma registrar_eq (s : gmap Z str) (o : list Z) (v : Z) :
  registrar (s, o) v =
  match s !! v with
  | None => (<[v := dir (size s + 1)]> s, o ++ [v])
  | Some _ => (s, o)
  end.
Proof. reflexivity. Qed.

Lemma tablas_inv_elem (s : gmap Z str) (o : list Z) (v : Z) :
  tablas_inv (s, o) → (is_Some (s !! v) ↔ v ∈ o).
Proof.
  intros (_ & _ & H). simpl in H. split.
  - intros [a Ha]. apply H in Ha as (k & Hk & _).
    by eapply list_elem_of_lookup_2.
  - intros (k & Hk)%list_elem_of_lookup. exists (dir (S k)). apply H. eauto.
Qed.

Lemma registrar_inv (st : gmap Z str * list Z) (v : Z) :
  tablas_inv st → tablas_inv (registrar st v).
Proof.
  destruct st as [s o]. intros Hinv. rewrite registrar_eq.
  destruct (s !! v) as [a|] eqn:Hv; [done|].
  assert (v ∉ o) as Hvo.
  { rewrite <- (tablas_inv_elem s o v Hinv), Hv. by intros [? ?]. }
  destruct Hinv as (Hnd & Hsz & H). simpl in *.
  split_and!; simpl.
  - apply NoDup_app. split_and!; [done| |apply NoDup_singleton].
    intros x Hx ->%list_elem_of_singleton. done.
  - rewrite map_size_insert_None by done. rewrite length_app. simpl. lia.
  - intros w a. split.
    + destruct (decide (v = w)) as [<-|Hne].
      * rewrite lookup_insert_eq. intros [= <-]. exists (length o).
        rewrite lookup_app_r, Nat.sub_diag by lia.
        split; [done|]. f_equal. lia.
      * rewrite lookup_insert_ne by done. intros (k & Hk & ->)%H.
        exists k. split; [|done]. by apply lookup_app_l_Some.
    + intros (k & Hk & ->). apply lookup_app_Some in Hk as [Hk|[Hlen Hk]].
      * assert (v ≠ w) by (intros <-; by apply list_elem_of_lookup_2 in Hk).
        rewrite lookup_insert_ne by done. apply H. eauto.
      * apply list_lookup_singleton_Some in Hk as [Hk <-].
        rewrite lookup_insert_eq. do 2 f_equal. lia.
Qed.

Lemma registrar_orden (st : gmap Z str * list Z) (v : Z) :
  tablas_inv st →
  st.2 `prefix_of` (registrar st v).2 ∧
  ∀ x, x ∈ (registrar st v).2 ↔ x ∈ st.2 ∨ x = v.
Proof.
  destruct st as [s o]. intros Hinv. rewrite registrar_eq.
  pose proof (tablas_inv_elem s o v Hinv) as Hel.
  destruct (s !! v) as [a|] eqn:Hv; simpl.
  - split; [done|]. intros x. split; [auto|]. intros [?| ->]; [done|].
    apply Hel. eauto.
  - split; [by apply prefix_app_r|]. intros x.
    rewrite elem_of_app, list_elem_of_singleton. done.
Qed.

Lemma foldl_registrar (l : list Z) :
  ∀ st, tablas_inv st →
    tablas_inv (foldl registrar st l) ∧
    st.2 `prefix_of` (foldl registrar st l).2 ∧
    ∀ x, x ∈ (foldl registrar st l).2 ↔ x ∈ st.2 ∨ x ∈ l.
Proof.
  induction l as [|v l IH]; intros st Hinv; simpl.
  { split_and!; [done..|]. intros x. rewrite elem_of_nil. tauto. }
  destruct (registrar_orden st v Hinv) as (Hpre & Hel).
  destruct (IH _ (registrar_inv st v Hinv)) as (Hinv' & Hpre' & Hel').
  split_and!; [done| by etrans |].
  intros x. rewrite Hel', Hel, elem_of_cons. tauto.
Qed.

Lemma tablas_inv_empty : tablas_inv (∅, []).
Proof.
  split_and!; simpl; [constructor | done |].
  intros v a. rewrite lookup_empty. split; [done|]. by intros (k & ? & _).
Qed.

Lemma comprehension_ok {A B : Type} (f : A → res B) (g : A → B) (l : list A) :
  (∀ x, x ∈ l → f x = Ok (g x)) → comprehension f l = Ok (g <$> l).
Proof.
  induction l as [|x l IH]; intros H; simpl; [done|].
  rewrite (H x) by apply list_elem_of_here. cbn [mbind res_bind].
  rewrite IH; [done|]. intros y Hy. apply H. by apply list_elem_of_further.
Qed.

(** ** The code generator *)

Lemma generar_spec (direcciones : gmap Z str) (nodo : ASTNode) :
  (∀ v, v ∈ hojas nodo → is_Some (direcciones !! v)) →
  ∀ instrucciones temporal, ∃ ref nuevas,
    generar direcciones nodo (instrucciones, temporal) =
      Ok (ref, (instrucciones ++ nuevas, temporal + num_binop nodo)) ∧
    length nuevas = num_binop nodo.
Proof.
  induction nodo as [v|op l IHl r IHr]; intros Hdir ins t; simpl.
  - destruct (Hdir v) as [a Ha]; [simpl; apply list_elem_of_here|].
    exists a, []. unfold getitem. rewrite Ha. cbn [mbind res_bind].
    by rewrite app_nil_r, Nat.add_0_r.
  - destruct (IHl (λ v Hv, Hdir v (proj2 (elem_of_app _ _ _) (or_introl Hv)))
                ins t) as (a1 & n1 & H1 & L1).
    destruct (IHr (λ v Hv, Hdir v (proj2 (elem_of_app _ _ _) (or_intror Hv)))
                (ins ++ n1) (t + num_binop l)) as (a2 & n2 & H2 & L2).
    rewrite H1. cbn [mbind res_bind]. rewrite H2. cbn [mbind res_bind].
    eexists _, (n1 ++ n2 ++ [_]). split.
    + do 3 f_equal; [by rewrite <- !app_assoc | lia].
    + rewrite !length_app. simpl. lia.
Qed.

Lemma visitar_spec (nodo : ASTNode) :
  tablas_inv (visitar nodo (∅, [])) ∧
  ∀ x, x ∈ (visitar nodo (∅, [])).2 ↔ x ∈ hojas nodo.
Proof.
  rewrite visitar_hojas.
  destruct (foldl_registrar (hojas nodo) _ tablas_inv_empty) as (H1 & _ & H3).
  split; [done|]. intros x. rewrite H3. simpl. rewrite elem_of_nil. tauto.
Qed.

(** The address of a value counts the distinct values read before its
    first occurrence. *)
Lemma visitar_first_occurrence (nodo : ASTNode) (pre : list Z) (v : Z)
    (post : list Z) :
  hojas nodo = pre ++ v :: post → v ∉ pre →
  (visitar nodo (∅, [])).1 !! v =
    Some (dir (S (size (list_to_set pre : gset Z)))).
Proof.
  intros Hh Hv. rewrite visitar_hojas, Hh, foldl_app. simpl.
  destruct (foldl_registrar pre _ tablas_inv_empty) as (Hinv1 & _ & Hel1).
  destruct (foldl registrar (∅, []) pre) as [s1 o1] eqn:Hst1. simpl in Hel1.
  assert (v ∉ o1) as Hvo by (rewrite Hel1, elem_of_nil; tauto).
  assert (s1 !! v = None) as Hs1.
  { apply eq_None_not_Some. by rewrite (tablas_inv_elem s1 o1 v Hinv1). }
  assert (size (list_to_set pre : gset Z) = length o1) as ->.
  { destruct Hinv1 as (Hnd & _ & _). simpl in Hnd.
    rewrite <- (size_list_to_set (C:=gset Z) o1) by done.
    f_equal. apply set_eq. intros x. rewrite !elem_of_list_to_set, Hel1.
    rewrite elem_of_nil. tauto. }
  pose proof (registrar_inv _ v Hinv1) as Hinv2.
  destruct (foldl_registrar post _ Hinv2) as ((_ & _ & H) & Hpre & _).
  apply H. exists (length o1). split; [|done].
  eapply prefix_lookup_Some; [|done].
  rewrite registrar_eq, Hs1. simpl.
  by rewrite lookup_app_r, Nat.sub_diag by lia.
Qed.

Lemma construir_ok (nodo : ASTNode) :
  construir_tablas_semanticas nodo =
  Ok ((λ v, mkFilaSimbolo (str_of_Z v)
              (default [] ((visitar nodo (∅, [])).1 !! v)))
        <$> (visitar nodo (∅, [])).2,
      (λ v, mkFilaTipo (str_of_Z v) (py "entero"))
        <$> (visitar nodo (∅, [])).2,
      (visitar nodo (∅, [])).1).
Proof.
  unfold construir_tablas_semanticas.
  destruct (visitar_spec nodo) as (Hinv & _).
  destruct (visitar nodo (∅, [])) as [s o]. simpl.
  erewrite comprehension_ok; [done|].
  intros v Hv. apply (tablas_inv_elem s o v Hinv) in Hv as [a Ha].
  unfold getitem. by rewrite Ha.
Qed.

(** ** The facade *)

Section FacadeProofs.

Variable isdigit : char -> bool.
Variable isspace : char -> bool.
Variable int_ : str -> option Z.

Lemma tokenize_total (self : Lexer) (e : str) :
  tokenize isdigit isspace self e ≠ OutOfFuel.
Proof. apply loop_total. lia. Qed.

Lemma generar_codigo_ok (nodo : ASTNode) :
  ∃ instrs ref,
    generar_codigo_tres_direcciones nodo (visitar nodo (∅, [])).1 =
      Ok (instrs, ref) ∧
    length instrs = num_binop nodo.
Proof.
  destruct (visitar_spec nodo) as (Hinv & Hel).
  destruct (visitar nodo (∅, [])) as [s o] eqn:Hst. simpl in *.
  destruct (generar_spec s nodo) with (instrucciones := @nil str) (temporal := 1)
    as (ref & nuevas & Hg & Hl).
  { intros v Hv. apply (tablas_inv_elem s o v Hinv). by apply Hel. }
  exists nuevas, ref. unfold generar_codigo_tres_direcciones.
  rewrite Hg. done.
Qed.

Lemma compilar_total (self : ArithmeticCompiler) (e : str) :
  (compilar isdigit isspace int_ self e).1 ≠ OutOfFuel.
Proof.
  unfold compilar. simpl.
  pose proof (tokenize_total (_lexer self) e) as Htok.
  destruct (tokenize isdigit isspace (_lexer self) e) as [toks| |];
    cbn [mbind res_bind]; [|done..].
  pose proof (parse_total int_ toks) as Hparse.
  destruct (parse int_ toks) as [ast| |]; cbn [mbind res_bind]; [|done..].
  rewrite construir_ok. cbn [mbind res_bind].
  destruct (generar_codigo_ok ast) as (instrs & ref & -> & _). done.
Qed.

End FacadeProofs.

(** * The claims *)

Lemma fuel_agree_factor (int_ : str → option Z) (tokens : list Token)
    (f1 f2 i : nat) :
  _parse_factor int_ tokens f1 i ≠ OutOfFuel →
  _parse_factor int_ tokens f2 i ≠ OutOfFuel →
  _parse_factor int_ tokens f1 i = _parse_factor int_ tokens f2 i.
Proof.
  intros H1 H2.
  destruct (parse_fuel_mono int_ tokens f1) as (_ & _ & _ & _ & M1).
  destruct (parse_fuel_mono int_ tokens f2) as (_ & _ & _ & _ & M2).
  rewrite <- (M1 i (f1 `max` f2)), <- (M2 i (f1 `max` f2)) by (lia || done).
  done.
Qed.

Lemma LPAREN_not_NUMBER : LPAREN ∉ [NUMBER].
Proof. intros H%list_elem_of_singleton. discriminate H. Qed.

Lemma isspace_latin1_not_operator (c : char) :
  isspace_latin1 c = true → _TIPOS c = None.
Proof.
  unfold _TIPOS. intros H.
  repeat case_decide; subst; first [discriminate H | done].
Qed.

(** C1. For an AST that a successful parse produced, the tables are built
    and code generation returns as many instructions as the AST has
    [BinaryOpNode]s; when the AST is a single leaf there is no instruction
    and the final reference is the leaf's address in the table. *)
Theorem codegen_instruction_count (int_ : str → option Z)
    (tokens : list Token) (ast : ASTNode) :
  parse int_ tokens = Ok ast →
  ∃ tabla_simbolos tabla_tipos direcciones instrucciones resultado,
    construir_tablas_semanticas ast =
      Ok (tabla_simbolos, tabla_tipos, direcciones) ∧
    generar_codigo_tres_direcciones ast direcciones =
      Ok (instrucciones, resultado) ∧
    length instrucciones = num_binop ast ∧
    (∀ v, ast = NumberNode v →
       instrucciones = [] ∧ direcciones !! v = Some resultado).
Proof.
  intros _.
  destruct (generar_codigo_ok ast) as (instrs & ref & Hg & Hl).
  eexists _, _, _, instrs, ref. split; [apply construir_ok|].
  split_and!; [done..|]. intros v ->. simpl in Hl.
  split; [by destruct instrs|].
  unfold generar_codigo_tres_direcciones in Hg. cbn [generar] in Hg.
  unfold getitem in Hg.
  destruct ((visitar (NumberNode v) (∅, [])).1 !! v) as [a|]; [|done].
  cbn [mbind res_bind] in Hg. by injection Hg as _ <-.
Qed.

Lemma codegen_instruction_count_witness :
  parse int_latin1 [mkToken NUMBER (py "7") 0] = Ok (NumberNode 7) ∧
  ∃ tabla_simbolos tabla_tipos direcciones instrucciones resultado,
    construir_tablas_semanticas (NumberNode 7) =
      Ok (tabla_simbolos, tabla_tipos, direcciones) ∧
    generar_codigo_tres_direcciones (NumberNode 7) direcciones =
      Ok (instrucciones, resultado) ∧
    length instrucciones = num_binop (NumberNode 7) ∧
    (∀ v, NumberNode 7 = NumberNode v →
       instrucciones = [] ∧ direcciones !! v = Some resultado).
Proof.
  split; [reflexivity|].
  apply (codegen_instruction_count int_latin1 [mkToken NUMBER (py "7") 0]).
  reflexivity.
Defined.

(** C2. The table builder gives every literal value of the AST one
    address: the value whose first occurrence, reading the leaves left to
    right, comes after k distinct values gets [dir_(k+1)]; only literal
    values get an address, distinct values get distinct addresses, and the
    symbol and type tables hold one row per distinct value, in the order of
    the addresses. *)
Theorem tablas_first_occurrence (nodo : ASTNode) :
  ∃ tabla_simbolos tabla_tipos simbolos orden,
    construir_tablas_semanticas nodo =
      Ok (tabla_simbolos, tabla_tipos, simbolos) ∧
    (∀ pre v post, hojas nodo = pre ++ v :: post → v ∉ pre →
       simbolos !! v = Some (dir (S (size (list_to_set pre : gset Z))))) ∧
    (∀ v, is_Some (simbolos !! v) → v ∈ hojas nodo) ∧
    (∀ v w a, simbolos !! v = Some a → simbolos !! w = Some a → v = w) ∧
    NoDup orden ∧ (∀ v, v ∈ orden ↔ v ∈ hojas nodo) ∧
    length tabla_simbolos = length orden ∧
    length tabla_tipos = length orden ∧
    (∀ k v, orden !! k = Some v →
       simbolos !! v = Some (dir (S k)) ∧
       tabla_simbolos !! k = Some (mkFilaSimbolo (str_of_Z v) (dir (S k))) ∧
       tabla_tipos !! k = Some (mkFilaTipo (str_of_Z v) (py "entero"))).
Proof.
  eexists _, _, _, (visitar nodo (∅, [])).2.
  split; [apply construir_ok|].
  destruct (visitar_spec nodo) as (Hinv & Hel).
  pose proof (visitar_first_occurrence nodo) as Hfirst.
  destruct (visitar nodo (∅, [])) as [s o]. simpl in *.
  pose proof (tablas_inv_elem s o) as Hso.
  destruct Hinv as (Hnd & Hsz & H). simpl in *.
  split_and!; [done| | |done|done|by rewrite length_fmap..|].
  - intros v Hv. apply Hel, Hso; [by split_and!|done].
  - intros v w a (k & Hk & ->)%H (k' & Hk' & Heq%dir_inj)%H.
    injection Heq as <-. congruence.
  - intros k v Hk.
    assert (s !! v = Some (dir (S k))) as Hv by (apply H; eauto).
    rewrite !list_lookup_fmap, Hk. simpl. rewrite Hv. done.
Qed.

Lemma tablas_first_occurrence_witness :
  ∃ tabla_simbolos tabla_tipos simbolos,
    construir_tablas_semanticas
      (BinaryOpNode (py "+") (NumberNode 5)
         (BinaryOpNode (py "*") (NumberNode 7) (NumberNode 5))) =
      Ok (tabla_simbolos, tabla_tipos, simbolos) ∧
    simbolos !! 5%Z = Some (py "dir_1") ∧
    simbolos !! 7%Z = Some (py "dir_2") ∧
    length tabla_simbolos = 2.
Proof.
  destruct (tablas_first_occurrence
              (BinaryOpNode (py "+") (NumberNode 5)
                 (BinaryOpNode (py "*") (NumberNode 7) (NumberNode 5))))
    as (ts & tt & s & o & Hc & Hfirst & _ & _ & Hnd & Hel & Hts & _).
  exists ts, tt, s. split; [exact Hc|].
  split; [exact (Hfirst [] 5%Z [7%Z; 5%Z] eq_refl (not_elem_of_nil _))|].
  split.
  - refine (Hfirst [5%Z] 7%Z [5%Z] eq_refl _).
    intros H%list_elem_of_singleton. discriminate H.
  - rewrite construir_ok in Hc. injection Hc as <- _ _.
    reflexivity.
Defined.

(** C3. [compile("2+3*4")] succeeds; 2, 3 and 4 get [dir_1], [dir_2] and
    [dir_3]; the code is [t1 = dir_2 * dir_3] then [t2 = dir_1 + t1] and
    the final reference is [t2]: the product is computed first. *)
Theorem compile_precedence :
  ∃ b, compile "2+3*4" = Ok b ∧
    b_tabla_simbolos b =
      [mkFilaSimbolo (py "2") (py "dir_1");
       mkFilaSimbolo (py "3") (py "dir_2");
       mkFilaSimbolo (py "4") (py "dir_3")] ∧
    b_codigo_tres_direcciones b =
      [py "t1 = dir_2 * dir_3"; py "t2 = dir_1 + t1"] ∧
    b_resultado b = py "t2" ∧
    b_ast b =
      BinaryOpNode (py "+") (NumberNode 2)
        (BinaryOpNode (py "*") (NumberNode 3) (NumberNode 4)).
Proof.
  eexists. split; [vm_compute; reflexivity|].
  split_and!; reflexivity.
Qed.

(** C4. [compile("8-3-2")] succeeds with exactly the two instructions
    [t1 = dir_1 - dir_2] and [t2 = t1 - dir_3] and final reference [t2];
    the AST is [(8-3)-2]. In general each further operator and operand of
    a chain wraps the node accumulated so far as the left child of a new
    [BinaryOpNode], in the additive loop and in the multiplicative one. *)
Theorem compile_left_associative :
  (∃ b, compile "8-3-2" = Ok b ∧
     b_codigo_tres_direcciones b =
       [py "t1 = dir_1 - dir_2"; py "t2 = t1 - dir_3"] ∧
     b_resultado b = py "t2" ∧
     b_ast b =
       BinaryOpNode (py "-")
         (BinaryOpNode (py "-") (NumberNode 8) (NumberNode 3))
         (NumberNode 2)) ∧
  (∀ int_ tokens f nodo i t derecho k,
     tokens !! i = Some t → tipo t ∈ [PLUS; MINUS] →
     _parse_termino int_ tokens f (S i) = Ok (derecho, k) →
     _parse_expresion_loop int_ tokens (S f) nodo i =
     _parse_expresion_loop int_ tokens f
       (BinaryOpNode (valor t) nodo derecho) k) ∧
  (∀ int_ tokens f nodo i t derecho k,
     tokens !! i = Some t → tipo t ∈ [MUL; DIV] →
     _parse_factor int_ tokens f (S i) = Ok (derecho, k) →
     _parse_termino_loop int_ tokens (S f) nodo i =
     _parse_termino_loop int_ tokens f
       (BinaryOpNode (valor t) nodo derecho) k).
Proof.
  split_and!.
  - eexists. split; [vm_compute; reflexivity|]. split_and!; reflexivity.
  - intros int_ tokens f nodo i t derecho k Ht Htipo Hd.
    rewrite EL_S. unfold _coincide, _al_final.
    pose proof (lookup_lt_Some _ _ _ Ht).
    rewrite bool_decide_eq_false_2, Ht, bool_decide_eq_true_2 by (lia || done).
    rewrite (_avanzar_Some _ _ _ Ht). cbn [mbind res_bind]. by rewrite Hd.
  - intros int_ tokens f nodo i t derecho k Ht Htipo Hd.
    rewrite TL_S. unfold _coincide, _al_final.
    pose proof (lookup_lt_Some _ _ _ Ht).
    rewrite bool_decide_eq_false_2, Ht, bool_decide_eq_true_2 by (lia || done).
    rewrite (_avanzar_Some _ _ _ Ht). cbn [mbind res_bind]. by rewrite Hd.
Qed.

Lemma compile_left_associative_witness :
  _parse_expresion_loop int_latin1
    [mkToken NUMBER (py "8") 0; mkToken MINUS (py "-") 1;
     mkToken NUMBER (py "3") 2]
    3 (NumberNode 8) 1 =
  Ok (BinaryOpNode (py "-") (NumberNode 8) (NumberNode 3), 3).
Proof.
  rewrite (proj1 (proj2 compile_left_associative) int_latin1
             [mkToken NUMBER (py "8") 0; mkToken MINUS (py "-") 1;
              mkToken NUMBER (py "3") 2]
             2 (NumberNode 8) 1 (mkToken MINUS (py "-") 1) (NumberNode 3) 3
             eq_refl).
  - reflexivity.
  - apply list_elem_of_further, list_elem_of_here.
  - reflexivity.
Defined.

(** C5 as stated fails: on "1 2", made of digits and a blank only, the
    lexer returns two NUMBER tokens, not one. *)
Lemma tokenize_digits_spaces_two_tokens :
  Forall (λ c, isdigit_latin1 c || isspace_latin1 c = true) (py "1 2") ∧
  tokenize_latin1 mkLexer (py "1 2") =
    Ok [mkToken NUMBER (py "1") 0; mkToken NUMBER (py "2") 2] ∧
  ¬ ∃ t, tokenize_latin1 mkLexer (py "1 2") = Ok [t].
Proof.
  split_and!.
  - repeat constructor.
  - reflexivity.
  - intros [t H]. vm_compute in H. discriminate H.
Qed.

(** C5, amended. On an input made only of digits and whitespace (no
    whitespace character being one of the six operator characters),
    [tokenize] never fails and returns NUMBER tokens only, one per maximal
    run of consecutive digits, whose texts put together are the digits of
    the input in order; so there is exactly one token exactly when the
    input holds exactly one run of digits. *)
Theorem tokenize_digits_spaces (isdigit isspace : char → bool)
    (self : Lexer) (e : str) :
  (∀ c, isspace c = true → _TIPOS c = None) →
  Forall (λ c, isdigit c || isspace c = true) e →
  ∃ toks, tokenize isdigit isspace self e = Ok toks ∧
    Forall (λ t, tipo t = NUMBER) toks ∧
    length toks = digit_runs isdigit false e ∧
    concat (valor <$> toks) = filter (λ c, Is_true (isdigit c)) e.
Proof.
  intros Hsp Hall.
  destruct (loop_digits_spaces isdigit isspace e Hsp (S (length e)) 0 [])
    as (toks & H1 & H2 & H3 & H4); [lia | done |].
  exists toks. done.
Qed.

Lemma tokenize_digits_spaces_witness :
  ∃ toks, tokenize_latin1 mkLexer (py " 12  ") = Ok toks ∧
    Forall (λ t, tipo t = NUMBER) toks ∧
    length toks = 1 ∧
    concat (valor <$> toks) = py "12".
Proof.
  apply (tokenize_digits_spaces isdigit_latin1 isspace_latin1 mkLexer
           (py " 12  ")).
  - exact isspace_latin1_not_operator.
  - repeat constructor.
Defined.

(** Errors go up the calls of the parser unchanged. *)

Lemma respuesta_mono (int_ : str → option Z) (tokens : list Token)
    (c : llamada) (f f' : nat) :
  f ≤ f' → respuesta int_ tokens f c ≠ OutOfFuel →
  respuesta int_ tokens f' c = respuesta int_ tokens f c.
Proof.
  destruct (parse_fuel_mono int_ tokens f) as (ME & MEL & MT & MTL & MF).
  destruct c; simpl; auto.
Qed.

Lemma invoca_raise (int_ : str → option Z) (tokens : list Token)
    (c c' : llamada) :
  invoca int_ tokens c c' →
  ∀ f' e, respuesta int_ tokens f' c' = Raise e →
    ∃ f, respuesta int_ tokens f c = Raise e.
Proof.
  assert (∀ f1 f2 i r, _parse_termino int_ tokens f1 i = r →
            r ≠ OutOfFuel →
            _parse_termino int_ tokens (f1 `max` f2) i = r) as UT.
  { intros f1 f2 i r <- Hr.
    apply (respuesta_mono int_ tokens (LlTermino i)); [lia|done]. }
  assert (∀ f1 f2 i r, _parse_factor int_ tokens f1 i = r →
            r ≠ OutOfFuel →
            _parse_factor int_ tokens (f1 `max` f2) i = r) as UF.
  { intros f1 f2 i r <- Hr.
    apply (respuesta_mono int_ tokens (LlFactor i)); [lia|done]. }
  assert (∀ f1 f2 n i r, _parse_expresion_loop int_ tokens f2 n i = r →
            r ≠ OutOfFuel →
            _parse_expresion_loop int_ tokens (f1 `max` f2) n i = r) as UEL.
  { intros f1 f2 n i r <- Hr.
    apply (respuesta_mono int_ tokens (LlExpresionLoop n i)); [lia|done]. }
  assert (∀ f1 f2 n i r, _parse_termino_loop int_ tokens f2 n i = r →
            r ≠ OutOfFuel →
            _parse_termino_loop int_ tokens (f1 `max` f2) n i = r) as UTL.
  { intros f1 f2 n i r <- Hr.
    apply (respuesta_mono int_ tokens (LlTerminoLoop n i)); [lia|done]. }
  intros Hinv f' e He. destruct Hinv as
    [i|i f nodo j H1|nodo i Hco|nodo i t f d k Hco Ht H1
    |i|i f nodo j H1|nodo i Hco|nodo i t f d k Hco Ht H1|i Hn Hl]; simpl in *.
  - exists (S f'). by rewrite E_S, He.
  - exists (S (f `max` f')). rewrite E_S.
    rewrite (UT f f' _ _ H1) by done. cbn [mbind res_bind].
    by rewrite (UEL f f' _ _ _ He).
  - exists (S f'). rewrite EL_S, Hco.
    apply _coincide_true in Hco as (t & Ht & _).
    rewrite (_avanzar_Some _ _ _ Ht). cbn [mbind res_bind]. by rewrite He.
  - exists (S (f `max` f')). rewrite EL_S, Hco.
    rewrite (_avanzar_Some _ _ _ Ht). cbn [mbind res_bind].
    rewrite (UT f f' _ _ H1) by done. cbn [mbind res_bind].
    by rewrite (UEL f f' _ _ _ He).
  - exists (S f'). by rewrite T_S, He.
  - exists (S (f `max` f')). rewrite T_S.
    rewrite (UF f f' _ _ H1) by done. cbn [mbind res_bind].
    by rewrite (UTL f f' _ _ _ He).
  - exists (S f'). rewrite TL_S, Hco.
    apply _coincide_true in Hco as (t & Ht & _).
    rewrite (_avanzar_Some _ _ _ Ht). cbn [mbind res_bind]. by rewrite He.
  - exists (S (f `max` f')). rewrite TL_S, Hco.
    rewrite (_avanzar_Some _ _ _ Ht). cbn [mbind res_bind].
    rewrite (UF f f' _ _ H1) by done. cbn [mbind res_bind].
    by rewrite (UTL f f' _ _ _ He).
  - exists (S f'). rewrite F_S, Hn, Hl.
    apply _coincide_true in Hl as (t & Ht & _).
    rewrite (_avanzar_Some _ _ _ Ht). cbn [mbind res_bind]. by rewrite He.
Qed.

Lemma alcanza_raise (int_ : str → option Z) (tokens : list Token)
    (c c' : llamada) :
  rtc (invoca int_ tokens) c c' →
  ∀ f' e, respuesta int_ tokens f' c' = Raise e →
    ∃ f, respuesta int_ tokens f c = Raise e.
Proof.
  induction 1 as [c|c c1 c' Hstep Hrest IH]; intros f' e He; [eauto|].
  destruct (IH f' e He) as [f1 H1]. by eapply invoca_raise.
Qed.

Lemma parse_of_expresion_raise (int_ : str → option Z)
    (tokens : list Token) (f : nat) (e : excepcion) :
  tokens ≠ [] → _parse_expresion int_ tokens f 0 = Raise e →
  parse int_ tokens = Raise e.
Proof.
  intros Hne HE.
  destruct (parse_fuel_mono int_ tokens f) as (M1 & _).
  destruct (parse_fuel_mono int_ tokens (parse_fuel tokens)) as (M2 & _).
  destruct (parse_fuel_enough int_ tokens (parse_fuel tokens)) as (En & _).
  assert (_parse_expresion int_ tokens (parse_fuel tokens) 0 = Raise e)
    as Hpf.
  { rewrite <- HE, <- (M1 0 (f `max` parse_fuel tokens)) by (lia || congruence).
    symmetry. apply M2; [lia|]. apply En; unfold parse_fuel; lia. }
  unfold parse. destruct tokens as [|t0 ts] eqn:Htok; [done|].
  rewrite <- Htok in *. by rewrite Hpf.
Qed.

(** An error raised by a call that [parse] comes to is the error of
    [parse]. *)
Lemma alcanza_parse_raise (int_ : str → option Z) (tokens : list Token)
    (c : llamada) (f : nat) (e : excepcion) :
  tokens ≠ [] → alcanza int_ tokens c →
  respuesta int_ tokens f c = Raise e → parse int_ tokens = Raise e.
Proof.
  intros Hne Hc He.
  destruct (alcanza_raise int_ tokens _ _ Hc f e He) as [f0 H0].
  by eapply parse_of_expresion_raise.
Qed.

(** C6. Let [parse] come to a '(' at index i, that is to a call of
    [_parse_factor] at i, wherever it is in the token list and however
    deeply nested, and let the expression after it be parsed up to index
    j. When the token at j is not ')', [_parse_factor] raises "Se esperaba
    ')'" and [parse] fails with that very error: its position is the
    position of the token found at j if tokens remain, and the position
    of the last consumed token plus one if the input is exhausted.
    [compile("(2+3")] fails this way with position 4, the length of the
    input, and [compile("1+(2 3")] with position 5, where the second
    number is found instead of the ')'. *)
Theorem missing_closing_paren :
  (∀ int_ tokens i t f nodo j,
     alcanza int_ tokens (LlFactor i) →
     tokens !! i = Some t → tipo t = LPAREN →
     _parse_expresion int_ tokens f (S i) = Ok (nodo, j) →
     _coincide tokens [RPAREN] j = false →
     ∃ pos,
       match tokens !! j with
       | Some encontrado => pos = posicion encontrado
       | None =>
           j = length tokens ∧
           ∃ ultimo, tokens !! (j - 1) = Some ultimo ∧
                     pos = posicion ultimo + 1
       end ∧
       _parse_factor int_ tokens (S f) i =
         Raise (mkParserError msg_paren (Some pos)) ∧
       parse int_ tokens = Raise (mkParserError msg_paren (Some pos))) ∧
  compile "(2+3" = Raise (mkParserError msg_paren (Some 4)) ∧
  length (py "(2+3") = 4 ∧
  compile "1+(2 3" = Raise (mkParserError msg_paren (Some 5)).
Proof.
  split; [|split_and!; reflexivity].
  intros int_ tokens i t f nodo j Halc Ht Htipo HE Hrp.
  destruct (parse_progress int_ tokens f) as (PE & _).
  pose proof (PE _ _ _ HE) as Hj.
  assert (∃ pos,
    match tokens !! j with
    | Some encontrado => pos = posicion encontrado
    | None =>
        j = length tokens ∧
        ∃ ultimo, tokens !! (j - 1) = Some ultimo ∧ pos = posicion ultimo + 1
    end ∧
    _parse_factor int_ tokens (S f) i =
      Raise (mkParserError msg_paren (Some pos))) as (pos & Hpos & HF).
  { rewrite F_S.
    assert (_coincide tokens [NUMBER] i = false) as ->.
    { unfold _coincide. destruct (_al_final tokens i); [done|].
      rewrite Ht, Htipo. apply bool_decide_eq_false_2, LPAREN_not_NUMBER. }
    assert (_coincide tokens [LPAREN] i = true) as ->.
    { unfold _coincide, _al_final. pose proof (lookup_lt_Some _ _ _ Ht).
      rewrite bool_decide_eq_false_2, Ht, Htipo by lia.
      apply bool_decide_eq_true_2, list_elem_of_here. }
    rewrite (_avanzar_Some _ _ _ Ht). cbn [mbind res_bind].
    rewrite HE. cbn [mbind res_bind]. rewrite Hrp. cbn [negb].
    unfold _al_final. destruct (tokens !! j) as [enc|] eqn:Henc.
    - pose proof (lookup_lt_Some _ _ _ Henc).
      rewrite bool_decide_eq_false_2 by lia. cbn [negb mbind res_bind].
      by exists (posicion enc).
    - apply lookup_ge_None in Henc.
      rewrite bool_decide_eq_true_2 by done. cbn [negb].
      destruct (lookup_lt_is_Some_2 tokens (j - 1)) as [ult Hult]; [lia|].
      rewrite Hult. cbn [mbind res_bind].
      exists (posicion ult + 1). split; [|done].
      split; [lia|]. by exists ult. }
  exists pos. split_and!; [done..|].
  apply (alcanza_parse_raise int_ tokens (LlFactor i) (S f)); [|done..].
  intros ->. done.
Qed.

Lemma missing_closing_paren_witness :
  parse int_latin1
    [mkToken NUMBER (py "1") 0; mkToken PLUS (py "+") 1;
     mkToken LPAREN (py "(") 2; mkToken NUMBER (py "2") 3] =
  Raise (mkParserError msg_paren (Some 4)).
Proof.
  destruct (proj1 missing_closing_paren int_latin1
              [mkToken NUMBER (py "1") 0; mkToken PLUS (py "+") 1;
               mkToken LPAREN (py "(") 2; mkToken NUMBER (py "2") 3]
              2 (mkToken LPAREN (py "(") 2) 3 (NumberNode 2) 4)
    as (pos & Hpos & _ & Hparse).
  - eapply rtc_l; [apply (inv_expresion_loop _ _ 0 2 (NumberNode 1) 1);
                   reflexivity|].
    eapply rtc_l; [apply inv_loop_termino; reflexivity|].
    eapply rtc_l; [apply inv_termino_factor|]. apply rtc_refl.
  - reflexivity.
  - reflexivity.
  - reflexivity.
  - reflexivity.
  - simpl in Hpos. destruct Hpos as (_ & ult & [= <-] & ->).
    exact Hparse.
Defined.

(** C7. When the input holds a character that is neither a digit, nor one
    of + - * / ( ), nor whitespace, [tokenize] raises [LexerError] with
    the 0-based position of the first such character and that character,
    and returns no token; [compilar] passes the error on. In particular
    [compile("2@3")] raises [LexerError] at position 1 with '@'. *)
Theorem lexical_error_first_unrecognised :
  (∀ isdigit isspace int_ self e i c,
     e !! i = Some c → reconocido isdigit isspace c = false →
     (∀ j d, j < i → e !! j = Some d → reconocido isdigit isspace d = true) →
     tokenize isdigit isspace (_lexer self) e = Raise (LexerError i c) ∧
     (compilar isdigit isspace int_ self e).1 = Raise (LexerError i c)) ∧
  compile "2@3" = Raise (LexerError 1 (N_of_ascii "@")).
Proof.
  split; [|reflexivity].
  intros isdigit isspace int_ self e i c Hi Hc Hbefore.
  assert (tokenize isdigit isspace (_lexer self) e = Raise (LexerError i c))
    as Htok.
  { apply (loop_first_unrecognised isdigit isspace e i c Hi Hc Hbefore); [lia|].
    apply lookup_lt_Some in Hi. lia. }
  split; [done|]. unfold compilar. simpl. by rewrite Htok.
Qed.

Lemma lexical_error_first_unrecognised_witness :
  tokenize_latin1 mkLexer (py "12 +x3") = Raise (LexerError 4 (N_of_ascii "x")).
Proof.
  refine (proj1 (proj1 lexical_error_first_unrecognised
            isdigit_latin1 isspace_latin1 int_latin1
            ArithmeticCompiler_init (py "12 +x3") 4 (N_of_ascii "x")
            eq_refl eq_refl _)).
  intros j d Hj Hd.
  destruct j as [|[|[|[|j]]]]; [by injection Hd as <-..|lia].
Defined.

(** C8. [parse] on the empty token list raises "La expresión está vacía"
    with no position; the lexer returns no token for the empty string and
    [compile("")] fails with that error. *)
Theorem parse_empty :
  (∀ int_, parse int_ [] = Raise (ParserError msg_vacia None)) ∧
  (∀ isdigit isspace self, tokenize isdigit isspace self [] = Ok []) ∧
  compile "" = Raise (ParserError msg_vacia None).
Proof. split_and!; reflexivity. Qed.

(** C10. When [tokenize] succeeds, the positions of the tokens strictly
    increase and the text of each token is the part of the input that
    starts at its position: [expresion[p : p + len(valor)] == valor]. *)
Theorem tokenize_positions (isdigit isspace : char → bool) (self : Lexer)
    (e : str) (toks : list Token) :
  tokenize isdigit isspace self e = Ok toks →
  posiciones_crecientes toks ∧ Forall (texto_en e) toks.
Proof.
  intros H. apply loop_bien_situados in H as (nuevos & -> & H).
  apply bien_situados_spec in H as (H1 & H2 & _). done.
Qed.

Lemma tokenize_positions_witness :
  tokenize_latin1 mkLexer (py "12 + 345") =
    Ok [mkToken NUMBER (py "12") 0; mkToken PLUS (py "+") 3;
        mkToken NUMBER (py "345") 5] ∧
  posiciones_crecientes
    [mkToken NUMBER (py "12") 0; mkToken PLUS (py "+") 3;
     mkToken NUMBER (py "345") 5] ∧
  Forall (texto_en (py "12 + 345"))
    [mkToken NUMBER (py "12") 0; mkToken PLUS (py "+") 3;
     mkToken NUMBER (py "345") 5].
Proof.
  split; [reflexivity|].
  apply (tokenize_positions isdigit_latin1 isspace_latin1 mkLexer).
  reflexivity.
Defined.

(** * Further properties *)

(** ** The parser: what a successful parse has read *)

Section ParserStructure.

Variable int_ : str -> option Z.
Variable tokens : list Token.

Local Abbreviation E := (_parse_expresion int_ tokens).
Local Abbreviation EL := (_parse_expresion_loop int_ tokens).
Local Abbreviation T := (_parse_termino int_ tokens).
Local Abbreviation TL := (_parse_termino_loop int_ tokens).
Local Abbreviation F := (_parse_factor int_ tokens).
Local Abbreviation bf := (bien_formado int_).

Lemma tramo_split (i j k : nat) :
  i ≤ j → j ≤ k → tramo tokens i k = tramo tokens i j ++ tramo tokens j k.
Proof.
  intros Hij Hjk. unfold tramo.
  replace (drop j tokens) with (drop (j - i) (drop i tokens))
    by (rewrite drop_drop; f_equal; lia).
  rewrite take_take_drop. f_equal. lia.
Qed.

Lemma tramo_single (i : nat) (t : Token) :
  tokens !! i = Some t → tramo tokens i (S i) = [t].
Proof.
  intros Ht. unfold tramo. rewrite (drop_S _ _ _ Ht).
  replace (S i - i) with 1 by lia. done.
Qed.

Lemma tramo_all : tramo tokens 0 (length tokens) = tokens.
Proof. unfold tramo. rewrite drop_0, Nat.sub_0_r. by apply take_ge. Qed.

Lemma bien_formado_app (ts1 ts2 : list Token) (h1 h2 : list Z)
    (o1 o2 : list str) :
  bf ts1 h1 o1 → bf ts2 h2 o2 → bf (ts1 ++ ts2) (h1 ++ h2) (o1 ++ o2).
Proof.
  unfold bien_formado, numeros, operadores_de, cuenta_tipos.
  intros (<- & <- & Hp1 & Hk1) (<- & <- & Hp2 & Hk2).
  rewrite omap_app, !filter_app, fmap_app, !length_app.
  split_and!; [done | done | lia | by apply Forall_app].
Qed.

Lemma bien_formado_number (t : Token) (n : Z) :
  tipo t = NUMBER → int_ (valor t) = Some n → bf [t] [n] [].
Proof.
  intros Ht Hn.
  unfold bien_formado, numeros, operadores_de, cuenta_tipos.
  rewrite !filter_cons, !filter_nil, Ht. simpl.
  rewrite decide_True, Hn by done.
  split_and!; [done..|]. constructor; [|constructor].
  rewrite Ht. apply list_elem_of_here.
Qed.

Lemma bien_formado_operador (t : Token) :
  tipo t ∈ OPERADORES → bf [t] [] [valor t].
Proof.
  intros Ht.
  assert (tipo t ∈ TIPOS_TOKEN ∧ tipo t ≠ NUMBER ∧
          (tipo t ∉ [LPAREN]) ∧ (tipo t ∉ [RPAREN])) as (Hk & Hn & Hl & Hr).
  { unfold OPERADORES in Ht. unfold TIPOS_TOKEN.
    repeat (apply elem_of_cons in Ht as [->|Ht]);
      [..|by apply elem_of_nil in Ht];
      (split_and!;
         [set_solver | done
         | intros Hx%list_elem_of_singleton; discriminate Hx
         | intros Hx%list_elem_of_singleton; discriminate Hx]). }
  unfold bien_formado, numeros, operadores_de, cuenta_tipos.
  rewrite !filter_cons, !filter_nil. simpl.
  rewrite (decide_False (P := tipo t = NUMBER)),
    (decide_True (P := tipo t ∈ OPERADORES)),
    (decide_False (P := tipo t ∈ [LPAREN])),
    (decide_False (P := tipo t ∈ [RPAREN])) by done.
  split_and!; [done..|]. by constructor.
Qed.

Lemma bien_formado_paren (a b : Token) (ts : list Token) (hs : list Z)
    (os : list str) :
  tipo a ∈ [LPAREN] → tipo b ∈ [RPAREN] → bf ts hs os →
  bf ([a] ++ ts ++ [b]) hs os.
Proof.
  intros Ha%list_elem_of_singleton Hb%list_elem_of_singleton.
  unfold bien_formado, numeros, operadores_de, cuenta_tipos.
  intros (<- & <- & Hp & Hk).
  rewrite !omap_app, !filter_app, !fmap_app, !length_app.
  rewrite !filter_cons, !filter_nil, Ha, Hb. simpl. rewrite Ha, Hb. simpl.
  split_and!; [by rewrite app_nil_r | by rewrite app_nil_r | lia |].
  constructor; [rewrite Ha; unfold TIPOS_TOKEN; set_solver|].
  apply Forall_app. split; [done|]. constructor; [|constructor].
  rewrite Hb. unfold TIPOS_TOKEN. set_solver.
Qed.

Lemma bien_formado_nil : bf [] [] [].
Proof. by split_and!. Qed.

(** What a successful call has read is a well-formed piece of the token
    list, holding the leaves and the operators of the node it returns. *)
Lemma parse_bien_formado (f : nat) :
  (∀ i n j, E f i = Ok (n, j) →
     bf (tramo tokens i j) (hojas n) (operadores_inorden n)) ∧
  (∀ nodo i n j, i ≤ length tokens → EL f nodo i = Ok (n, j) →
     ∃ hs os, bf (tramo tokens i j) hs os ∧ hojas n = hojas nodo ++ hs ∧
       operadores_inorden n = operadores_inorden nodo ++ os) ∧
  (∀ i n j, T f i = Ok (n, j) →
     bf (tramo tokens i j) (hojas n) (operadores_inorden n)) ∧
  (∀ nodo i n j, i ≤ length tokens → TL f nodo i = Ok (n, j) →
     ∃ hs os, bf (tramo tokens i j) hs os ∧ hojas n = hojas nodo ++ hs ∧
       operadores_inorden n = operadores_inorden nodo ++ os) ∧
  (∀ i n j, F f i = Ok (n, j) →
     bf (tramo tokens i j) (hojas n) (operadores_inorden n)).
Proof.
  induction f as [|f (IHE & IHEL & IHT & IHTL & IHF)]; [by split_and!|].
  destruct (parse_progress int_ tokens f) as (PE & PEL & PT & PTL & PF).
  split_and!.
  - intros i n j. rewrite E_S.
    destruct (T f i) as [[n1 j1]| |] eqn:H1; cbn [mbind res_bind]; [|done..].
    intros H. pose proof (PT _ _ _ H1) as Hp1.
    assert (j1 ≤ length tokens) as Hj1 by lia. pose proof (PEL _ _ _ _ Hj1 H).
    apply IHT in H1. apply IHEL in H as (hs & os & Hbf & -> & ->); [|lia].
    rewrite (tramo_split i j1 j) by lia. by apply bien_formado_app.
  - intros nodo i n j Hi. rewrite EL_S.
    destruct (_coincide tokens [PLUS; MINUS] i) eqn:Hco.
    + apply _coincide_true in Hco as (t & Ht & Htipo & Hlt).
      rewrite (_avanzar_Some _ _ _ Ht). cbn [mbind res_bind].
      destruct (T f (S i)) as [[n1 j1]| |] eqn:H1; cbn [mbind res_bind];
        [|done..].
      intros H. pose proof (PT _ _ _ H1) as Hp1.
    assert (j1 ≤ length tokens) as Hj1 by lia. pose proof (PEL _ _ _ _ Hj1 H).
      apply IHT in H1. apply IHEL in H as (hs & os & Hbf & -> & ->); [|lia].
      exists (hojas n1 ++ hs), (valor t :: operadores_inorden n1 ++ os).
      split_and!.
      * rewrite (tramo_split i (S i) j), (tramo_split (S i) j1 j) by lia.
        rewrite (tramo_single _ _ Ht).
        apply (bien_formado_app [t] _ [] _ [valor t]).
        { apply bien_formado_operador. unfold OPERADORES.
          rewrite !elem_of_cons in Htipo. rewrite !elem_of_cons. tauto. }
        by apply bien_formado_app.
      * simpl. by rewrite <- app_assoc.
      * simpl. by rewrite <- app_assoc.
    + intros [= <- <-]. exists [], []. rewrite !app_nil_r.
      split_and!; [|done..]. unfold tramo. rewrite Nat.sub_diag.
      apply bien_formado_nil.
  - intros i n j. rewrite T_S.
    destruct (F f i) as [[n1 j1]| |] eqn:H1; cbn [mbind res_bind]; [|done..].
    intros H. pose proof (PF _ _ _ H1) as Hp1.
    assert (j1 ≤ length tokens) as Hj1 by lia. pose proof (PTL _ _ _ _ Hj1 H).
    apply IHF in H1. apply IHTL in H as (hs & os & Hbf & -> & ->); [|lia].
    rewrite (tramo_split i j1 j) by lia. by apply bien_formado_app.
  - intros nodo i n j Hi. rewrite TL_S.
    destruct (_coincide tokens [MUL; DIV] i) eqn:Hco.
    + apply _coincide_true in Hco as (t & Ht & Htipo & Hlt).
      rewrite (_avanzar_Some _ _ _ Ht). cbn [mbind res_bind].
      destruct (F f (S i)) as [[n1 j1]| |] eqn:H1; cbn [mbind res_bind];
        [|done..].
      intros H. pose proof (PF _ _ _ H1) as Hp1.
    assert (j1 ≤ length tokens) as Hj1 by lia. pose proof (PTL _ _ _ _ Hj1 H).
      apply IHF in H1. apply IHTL in H as (hs & os & Hbf & -> & ->); [|lia].
      exists (hojas n1 ++ hs), (valor t :: operadores_inorden n1 ++ os).
      split_and!.
      * rewrite (tramo_split i (S i) j), (tramo_split (S i) j1 j) by lia.
        rewrite (tramo_single _ _ Ht).
        apply (bien_formado_app [t] _ [] _ [valor t]).
        { apply bien_formado_operador. unfold OPERADORES.
          rewrite !elem_of_cons in Htipo. rewrite !elem_of_cons. tauto. }
        by apply bien_formado_app.
      * simpl. by rewrite <- app_assoc.
      * simpl. by rewrite <- app_assoc.
    + intros [= <- <-]. exists [], []. rewrite !app_nil_r.
      split_and!; [|done..]. unfold tramo. rewrite Nat.sub_diag.
      apply bien_formado_nil.
  - intros i n j. rewrite F_S.
    destruct (_coincide tokens [NUMBER] i) eqn:Hnum.
    { apply _coincide_true in Hnum as (t & Ht & Htipo & Hlt).
      rewrite (_avanzar_Some _ _ _ Ht). cbn [mbind res_bind].
      destruct (int_ (valor t)) as [z|] eqn:Hz; [|done]. intros [= <- <-].
      rewrite (tramo_single _ _ Ht). simpl.
      apply bien_formado_number; [|done]. by apply list_elem_of_singleton. }
    destruct (_coincide tokens [LPAREN] i) eqn:Hlp; [|done].
    apply _coincide_true in Hlp as (t & Ht & Htipo & Hlt).
    rewrite (_avanzar_Some _ _ _ Ht). cbn [mbind res_bind].
    destruct (E f (S i)) as [[n1 j1]| |] eqn:H1; cbn [mbind res_bind];
      [|done..].
    pose proof (PE _ _ _ H1). apply IHE in H1.
    destruct (_coincide tokens [RPAREN] j1) eqn:Hrp; cbn [negb].
    + apply _coincide_true in Hrp as (t' & Ht' & Htipo' & Hlt').
      rewrite (_avanzar_Some _ _ _ Ht'). cbn [mbind res_bind].
      intros [= <- <-].
      rewrite (tramo_split i (S i) (S j1)), (tramo_split (S i) j1 (S j1))
        by lia.
      rewrite (tramo_single _ _ Ht), (tramo_single _ _ Ht').
      by apply bien_formado_paren.
    + destruct (negb (_al_final tokens j1));
        [destruct (tokens !! j1) | destruct (tokens !! (j1 - 1))]; done.
Qed.

Lemma num_binop_operadores (nodo : ASTNode) :
  num_binop nodo = length (operadores_inorden nodo).
Proof.
  induction nodo as [v|op l IHl r IHr]; simpl; [done|].
  rewrite length_app. simpl. lia.
Qed.

(** The result of [parse], read off any run of [_parse_expresion] that
    came to an end. *)
Lemma parse_of_expresion (f : nat) (nodo : ASTNode) (j : nat) :
  E f 0 = Ok (nodo, j) →
  parse int_ tokens =
  match tokens !! j with
  | Some t => Raise (mkParserError msg_inesperado (Some (posicion t)))
  | None => Ok nodo
  end.
Proof.
  intros HE.
  destruct (parse_progress int_ tokens f) as (PE & _).
  pose proof (PE _ _ _ HE) as Hj.
  destruct (parse_fuel_mono int_ tokens f) as (M1 & _).
  destruct (parse_fuel_mono int_ tokens (parse_fuel tokens)) as (M2 & _).
  destruct (parse_fuel_enough int_ tokens (parse_fuel tokens)) as (En & _).
  assert (E (parse_fuel tokens) 0 = Ok (nodo, j)) as Hpf.
  { rewrite <- HE, <- (M1 0 (f `max` parse_fuel tokens)) by (lia || congruence).
    symmetry. apply M2; [lia|]. apply En; unfold parse_fuel; lia. }
  unfold parse. destruct tokens as [|t0 ts] eqn:Htok; [simpl in Hj; lia|].
  rewrite <- Htok in *. rewrite Hpf. cbn [mbind res_bind]. unfold _al_final.
  destruct (tokens !! j) as [t|] eqn:Ht.
  - pose proof (lookup_lt_Some _ _ _ Ht).
    by rewrite bool_decide_eq_false_2 by lia.
  - apply lookup_ge_None in Ht. by rewrite bool_decide_eq_true_2 by lia.
Qed.

Lemma respuesta_prevista_raise {A B : Type} (e : excepcion) :
  respuesta_prevista (A:=A) int_ tokens (Raise e) →
  respuesta_prevista (A:=B) int_ tokens (Raise e).
Proof. done. Qed.

(** No call reads outside the token list: the only exceptions are the
    syntax errors and the [ValueError] of [int]. *)
Lemma parse_respuesta (f : nat) :
  (∀ i, respuesta_prevista int_ tokens (E f i)) ∧
  (∀ nodo i, respuesta_prevista int_ tokens (EL f nodo i)) ∧
  (∀ i, respuesta_prevista int_ tokens (T f i)) ∧
  (∀ nodo i, respuesta_prevista int_ tokens (TL f nodo i)) ∧
  (∀ i, respuesta_prevista int_ tokens (F f i)).
Proof.
  induction f as [|f (IHE & IHEL & IHT & IHTL & IHF)]; [by split_and!|].
  destruct (parse_progress int_ tokens f) as (PE & PEL & PT & PTL & PF).
  split_and!.
  - intros i. rewrite E_S. specialize (IHT i).
    destruct (T f i) as [[n1 j1]|e|] eqn:H1; cbn [mbind res_bind];
      [apply IHEL | done | done].
  - intros nodo i. rewrite EL_S.
    destruct (_coincide tokens [PLUS; MINUS] i) eqn:Hco; [|done].
    apply _coincide_true in Hco as (t & Ht & _ & Hlt).
    rewrite (_avanzar_Some _ _ _ Ht). cbn [mbind res_bind].
    specialize (IHT (S i)).
    destruct (T f (S i)) as [[n1 j1]|e|] eqn:H1; cbn [mbind res_bind];
      [apply IHEL | done | done].
  - intros i. rewrite T_S. specialize (IHF i).
    destruct (F f i) as [[n1 j1]|e|] eqn:H1; cbn [mbind res_bind];
      [apply IHTL | done | done].
  - intros nodo i. rewrite TL_S.
    destruct (_coincide tokens [MUL; DIV] i) eqn:Hco; [|done].
    apply _coincide_true in Hco as (t & Ht & _ & Hlt).
    rewrite (_avanzar_Some _ _ _ Ht). cbn [mbind res_bind].
    specialize (IHF (S i)).
    destruct (F f (S i)) as [[n1 j1]|e|] eqn:H1; cbn [mbind res_bind];
      [apply IHTL | done | done].
  - intros i. rewrite F_S.
    destruct (_coincide tokens [NUMBER] i) eqn:Hnum.
    { apply _coincide_true in Hnum as (t & Ht & Htipo & Hlt).
      rewrite (_avanzar_Some _ _ _ Ht). cbn [mbind res_bind].
      destruct (int_ (valor t)) as [z|] eqn:Hz; [done|].
      exists t. split_and!; [|by apply list_elem_of_singleton|done].
      by eapply list_elem_of_lookup_2. }
    destruct (_coincide tokens [LPAREN] i) eqn:Hlp.
    2:{ by destruct (posicion <$> _). }
    apply _coincide_true in Hlp as (t & Ht & _ & Hlt).
    rewrite (_avanzar_Some _ _ _ Ht). cbn [mbind res_bind].
    specialize (IHE (S i)).
    destruct (E f (S i)) as [[n1 j1]|e|] eqn:H1; cbn [mbind res_bind];
      [|done..].
    apply PE in H1.
    destruct (_coincide tokens [RPAREN] j1) eqn:Hrp; cbn [negb].
    + apply _coincide_true in Hrp as (t' & Ht' & _ & Hlt').
      by rewrite (_avanzar_Some _ _ _ Ht').
    + unfold _al_final. case_bool_decide as Hend; cbn [negb].
      * destruct (lookup_lt_is_Some_2 tokens (j1 - 1)) as [u ->]; [lia|].
        done.
      * destruct (lookup_lt_is_Some_2 tokens j1) as [u ->]; [lia|]. done.
Qed.

(** An error without position other than the empty input comes from a
    factor looked for past the end, after an operator or a '('. *)
Lemma parse_sin_posicion (f : nat) :
  let final := ∃ t, last tokens = Some t ∧ tipo t ∈ OPERADORES ++ [LPAREN] in
  (∀ i m, E f i = Raise (ParserError m None) →
     m = msg_factor ∧ (length tokens ≤ i ∨ final)) ∧
  (∀ nodo i m, EL f nodo i = Raise (ParserError m None) →
     m = msg_factor ∧ final) ∧
  (∀ i m, T f i = Raise (ParserError m None) →
     m = msg_factor ∧ (length tokens ≤ i ∨ final)) ∧
  (∀ nodo i m, TL f nodo i = Raise (ParserError m None) →
     m = msg_factor ∧ final) ∧
  (∀ i m, F f i = Raise (ParserError m None) →
     m = msg_factor ∧ (length tokens ≤ i ∨ final)).
Proof.
  intros final.
  assert (∀ i t, tokens !! i = Some t → length tokens ≤ S i →
            tipo t ∈ OPERADORES ++ [LPAREN] → final) as Hfinal.
  { intros i t Ht Hlen Htipo. exists t. split; [|done].
    pose proof (lookup_lt_Some _ _ _ Ht).
    rewrite last_lookup. by replace (pred (length tokens)) with i by lia. }
  induction f as [|f (IHE & IHEL & IHT & IHTL & IHF)]; [by split_and!|].
  split_and!.
  - intros i m. rewrite E_S.
    destruct (T f i) as [[n1 j1]|e|] eqn:H1; cbn [mbind res_bind];
      [|intros [= ->]; by apply IHT|done].
    intros H%IHEL. tauto.
  - intros nodo i m. rewrite EL_S.
    destruct (_coincide tokens [PLUS; MINUS] i) eqn:Hco; [|done].
    apply _coincide_true in Hco as (t & Ht & Htipo & Hlt).
    rewrite (_avanzar_Some _ _ _ Ht). cbn [mbind res_bind].
    destruct (T f (S i)) as [[n1 j1]|e|] eqn:H1; cbn [mbind res_bind];
      [by apply IHEL| |done].
    intros [= ->]. apply IHT in H1 as [-> [Hlen|Hf]]; [|done].
    split; [done|]. apply (Hfinal i t Ht Hlen).
    unfold OPERADORES. rewrite !elem_of_cons in Htipo.
    rewrite elem_of_app, !elem_of_cons. tauto.
  - intros i m. rewrite T_S.
    destruct (F f i) as [[n1 j1]|e|] eqn:H1; cbn [mbind res_bind];
      [|intros [= ->]; by apply IHF|done].
    intros H%IHTL. tauto.
  - intros nodo i m. rewrite TL_S.
    destruct (_coincide tokens [MUL; DIV] i) eqn:Hco; [|done].
    apply _coincide_true in Hco as (t & Ht & Htipo & Hlt).
    rewrite (_avanzar_Some _ _ _ Ht). cbn [mbind res_bind].
    destruct (F f (S i)) as [[n1 j1]|e|] eqn:H1; cbn [mbind res_bind];
      [by apply IHTL| |done].
    intros [= ->]. apply IHF in H1 as [-> [Hlen|Hf]]; [|done].
    split; [done|]. apply (Hfinal i t Ht Hlen).
    unfold OPERADORES. rewrite !elem_of_cons in Htipo.
    rewrite elem_of_app, !elem_of_cons. tauto.
  - intros i m. rewrite F_S.
    destruct (_coincide tokens [NUMBER] i) eqn:Hnum.
    { apply _coincide_true in Hnum as (t & Ht & _ & Hlt).
      rewrite (_avanzar_Some _ _ _ Ht). cbn [mbind res_bind].
      by destruct (int_ (valor t)). }
    destruct (_coincide tokens [LPAREN] i) eqn:Hlp.
    + apply _coincide_true in Hlp as (t & Ht & Htipo & Hlt).
      rewrite (_avanzar_Some _ _ _ Ht). cbn [mbind res_bind].
      destruct (E f (S i)) as [[n1 j1]|e|] eqn:H1; cbn [mbind res_bind];
        [| |done].
      * destruct (_coincide tokens [RPAREN] j1) eqn:Hrp; cbn [negb].
        { apply _coincide_true in Hrp as (t' & Ht' & _ & Hlt').
          by rewrite (_avanzar_Some _ _ _ Ht'). }
        destruct (negb (_al_final tokens j1));
          [destruct (tokens !! j1) | destruct (tokens !! (j1 - 1))]; done.
      * intros [= ->]. apply IHE in H1 as [-> [Hlen|Hf]]; [|by auto].
        split; [done|]. right. apply (Hfinal i t Ht Hlen).
        apply list_elem_of_singleton in Htipo. rewrite Htipo.
        unfold OPERADORES. rewrite elem_of_app, !elem_of_cons. tauto.
    + unfold _al_final. case_bool_decide as Hend; cbn [negb fmap option_fmap option_map].
      * intros [= <-]. split; [done|]. by left.
      * destruct (tokens !! i) as [t|] eqn:Ht; [done|].
        intros [= <-]. split; [done|]. left. by apply lookup_ge_None.
Qed.

End ParserStructure.

(** ** The lexer: when it succeeds and what its tokens are *)

Section LexerShapeProofs.

Variable isdigit : char -> bool.
Variable isspace : char -> bool.

Local Abbreviation loop := (tokenize_loop isdigit isspace).
Local Abbreviation run_len := (run_len isdigit).
Local Abbreviation sig := (significativo isdigit).
Local Abbreviation rec := (reconocido isdigit isspace).

Lemma filter_all {A : Type} (P : A → Prop) `{∀ x, Decision (P x)}
    (l : list A) :
  Forall P l → filter P l = l.
Proof.
  induction 1 as [|x l Hx Hl IH]; [done|].
  by rewrite filter_cons_True, IH.
Qed.

Lemma run_take_drop (l : str) :
  take (run_len l) l ++ drop (run_len l) l = l.
Proof. apply take_drop. Qed.

(** On recognised characters the loop comes to a list of tokens. *)
Lemma loop_ok_recognised (e : str) (f : nat) :
  ∀ p toks, length e - p < f →
    Forall (λ c, rec c = true) (drop p e) →
    ∃ nuevos, loop f e toks p = Ok (toks ++ nuevos).
Proof.
  induction f as [|f IH]; intros p toks Hf Hall; [lia|].
  rewrite loop_unfold. destruct (drop p e) as [|c r] eqn:Hr.
  { exists []. by rewrite app_nil_r. }
  pose proof (drop_cons_length _ _ _ _ Hr) as Hp.
  destruct (isdigit c) eqn:Hc.
  { cbv zeta. set (n := run_len (c :: r)).
    assert (n ≠ 0) by (unfold n; simpl; rewrite Hc; lia).
    destruct (IH (p + n) (toks ++ [mkToken NUMBER (take n (c :: r)) p]))
      as (nuevos & ->); [lia| |].
    - rewrite <- drop_drop, Hr. by apply Forall_drop.
    - eexists (_ :: nuevos). by rewrite <- app_assoc. }
  apply Forall_cons in Hall as [Hc' Hall]. unfold reconocido in Hc'.
  rewrite Hc in Hc'. simpl in Hc'.
  destruct (_TIPOS c) as [k|] eqn:Hk.
  { destruct (IH (S p) (toks ++ [mkToken k [c] p])) as (nuevos & ->); [lia| |].
    - by rewrite (drop_S_cons _ _ _ _ Hr).
    - eexists (_ :: nuevos). by rewrite <- app_assoc. }
  rewrite bool_decide_eq_false_2 in Hc' by (by intros [? ?]).
  simpl in Hc'. rewrite Hc'.
  apply IH; [lia|]. by rewrite (drop_S_cons _ _ _ _ Hr).
Qed.

(** What a successful loop has appended, and what it has read. *)
Lemma loop_ok_shape (e : str) (f : nat) :
  ∀ p toks out, loop f e toks p = Ok out →
    ∃ nuevos, out = toks ++ nuevos ∧
      Forall (token_lexico isdigit e) nuevos ∧
      concat (valor <$> nuevos) = filter (λ c, Is_true (sig c)) (drop p e) ∧
      Forall (λ c, rec c = true) (drop p e).
Proof.
  induction f as [|f IH]; intros p toks out H; [done|].
  rewrite loop_unfold in H. destruct (drop p e) as [|c r] eqn:Hr.
  { injection H as <-. exists []. rewrite app_nil_r. by split_and!. }
  destruct (isdigit c) eqn:Hc.
  { cbv zeta in H. set (n := run_len (c :: r)) in *.
    apply IH in H as (nuevos & -> & Hshape & Hcat & Hrec).
    assert (drop (p + n) e = drop n (c :: r)) as Hdrop
      by (by rewrite <- drop_drop, Hr).
    pose proof (run_len_le isdigit (c :: r)) as Hle. fold n in Hle.
    pose proof (run_len_digits isdigit (c :: r)) as Hdig. fold n in Hdig.
    assert (n ≠ 0) as Hn by (unfold n; simpl; rewrite Hc; lia).
    eexists (_ :: nuevos). split; [by rewrite <- app_assoc|]. split_and!.
    - constructor; [|done]. left. cbn [tipo valor posicion].
      rewrite length_take_le by done. split_and!; [done| |done|].
      + intros Hnil%(f_equal length). rewrite length_take_le in Hnil by done.
        by apply Hn.
      + intros d Hd. apply (run_len_stop isdigit (c :: r)). fold n.
        by rewrite <- Hdrop, lookup_drop, Nat.add_0_r.
    - rewrite fmap_cons, concat_cons. cbn [valor]. rewrite Hcat, Hdrop.
      rewrite <- (run_take_drop (c :: r)) at 3. fold n.
      rewrite filter_app. f_equal. symmetry. apply filter_all.
      eapply Forall_impl; [exact Hdig|]. intros d Hd. unfold significativo.
      by rewrite Hd.
    - rewrite <- (run_take_drop (c :: r)). fold n. apply Forall_app.
      split; [|by rewrite <- Hdrop].
      eapply Forall_impl; [exact Hdig|]. intros d Hd. unfold reconocido.
      by rewrite Hd. }
  destruct (_TIPOS c) as [k|] eqn:Hk.
  { apply IH in H as (nuevos & -> & Hshape & Hcat & Hrec).
    rewrite (drop_S_cons _ _ _ _ Hr) in Hcat, Hrec.
    eexists (_ :: nuevos). split; [by rewrite <- app_assoc|]. split_and!.
    - constructor; [|done]. right. by exists c.
    - rewrite fmap_cons, concat_cons. cbn [valor].
      rewrite filter_cons_True; [by rewrite Hcat|].
      unfold significativo. rewrite Hc, Hk.
      by rewrite bool_decide_eq_true_2 by eauto.
    - constructor; [|done]. unfold reconocido. rewrite Hc, Hk.
      by rewrite bool_decide_eq_true_2 by eauto. }
  destruct (isspace c) eqn:Hs; [|done].
  apply IH in H as (nuevos & -> & Hshape & Hcat & Hrec).
  rewrite (drop_S_cons _ _ _ _ Hr) in Hcat, Hrec.
  exists nuevos. split_and!; [done..| |].
  - rewrite filter_cons_False; [done|].
    unfold significativo. rewrite Hc, Hk.
    rewrite bool_decide_eq_false_2 by (by intros [? ?]). by intros [].
  - constructor; [|done]. unfold reconocido. rewrite Hc, Hs.
    by rewrite orb_true_r.
Qed.

End LexerShapeProofs.

(** ** The code generator: temporaries, operands and missing addresses *)

Lemma length_operadores_postorden (nodo : ASTNode) :
  length (operadores_postorden nodo) = num_binop nodo.
Proof.
  induction nodo as [v|op l IHl r IHr]; simpl; [done|].
  rewrite !length_app. simpl. lia.
Qed.

Lemma operando_valido_mono (direcciones : gmap Z str) (t i i' : nat)
    (x : str) :
  i ≤ i' → operando_valido direcciones t i x →
  operando_valido direcciones t i' x.
Proof.
  intros Hi [Hd|(k & Hk & ->)]; [by left|]. right. exists k. split; [lia|done].
Qed.

Lemma operando_valido_shift (direcciones : gmap Z str) (t d i : nat)
    (x : str) :
  operando_valido direcciones (t + d) i x →
  operando_valido direcciones t (d + i) x.
Proof.
  intros [Hd|(k & Hk & ->)]; [by left|]. right. exists k. split; [lia|done].
Qed.

(** What a successful run of [generar] has appended and returned. *)
Lemma generar_shape (direcciones : gmap Z str) (nodo : ASTNode) :
  ∀ ins0 t ref st', generar direcciones nodo (ins0, t) = Ok (ref, st') →
    ∃ nuevas, st' = (ins0 ++ nuevas, t + num_binop nodo) ∧
      length nuevas = num_binop nodo ∧
      match nodo with
      | NumberNode v => direcciones !! v = Some ref
      | BinaryOpNode _ _ _ => ref = temp (t + num_binop nodo - 1)
      end ∧
      (∀ v, v ∈ hojas nodo → is_Some (direcciones !! v)) ∧
      ∀ i x, nuevas !! i = Some x →
        ∃ izq op der,
          x = temp (t + i) ++ py " = " ++ izq ++ py " " ++ op ++ py " " ++ der ∧
          operadores_postorden nodo !! i = Some op ∧
          operando_valido direcciones t i izq ∧
          operando_valido direcciones t i der.
Proof.
  induction nodo as [v|op l IHl r IHr]; intros ins0 t ref st' H.
  - cbn [generar] in H. unfold getitem in H.
    destruct (direcciones !! v) as [a|] eqn:Ha; [|done].
    cbn [mbind res_bind] in H. injection H as <- <-.
    exists []. rewrite app_nil_r, Nat.add_0_r. split_and!; [done..| |done].
    intros w ->%list_elem_of_singleton. eauto.
  - cbn [generar] in H.
    destruct (generar direcciones l (ins0, t)) as [[a1 st1]| |] eqn:H1;
      cbn [mbind res_bind] in H; [|done..].
    apply IHl in H1 as (n1 & -> & L1 & R1 & D1 & I1).
    destruct (generar direcciones r (ins0 ++ n1, t + num_binop l))
      as [[a2 st2]| |] eqn:H2; cbn [mbind res_bind] in H; [|done..].
    apply IHr in H2 as (n2 & -> & L2 & R2 & D2 & I2).
    injection H as <- <-.
    assert (operando_valido direcciones t (num_binop l + num_binop r) a1)
      as V1.
    { destruct l as [v|op1 l1 l2]; [left; eauto|]. right.
      exists (t + num_binop (BinaryOpNode op1 l1 l2) - 1).
      simpl in *. split; [lia|done]. }
    assert (operando_valido direcciones t (num_binop l + num_binop r) a2)
      as V2.
    { destruct r as [v|op1 r1 r2]; [left; eauto|]. right.
      exists (t + num_binop l + num_binop (BinaryOpNode op1 r1 r2) - 1).
      simpl in *. split; [lia|done]. }
    eexists (n1 ++ n2 ++ [_]). cbn [num_binop hojas operadores_postorden].
    split_and!.
    + f_equal; [by rewrite <- !app_assoc | lia].
    + rewrite !length_app. simpl. lia.
    + replace (t + S (num_binop l + num_binop r) - 1)
        with (t + num_binop l + num_binop r) by lia. reflexivity.
    + intros v [Hv|Hv]%elem_of_app; auto.
    + intros i x Hx. apply lookup_app_Some in Hx as [Hx|[Hi1 Hx]].
      { destruct (I1 i x Hx) as (izq & o & der & -> & Ho & Vi & Vd).
        exists izq, o, der. split_and!; [done| |done..].
        by apply lookup_app_l_Some. }
      apply lookup_app_Some in Hx as [Hx|[Hi2 Hx]].
      { destruct (I2 _ x Hx) as (izq & o & der & -> & Ho & Vi & Vd).
        exists izq, o, der. split_and!.
        - do 2 f_equal. lia.
        - rewrite lookup_app_r by (rewrite length_operadores_postorden; lia).
          rewrite length_operadores_postorden, <- L1.
          by apply lookup_app_l_Some.
        - replace i with (num_binop l + (i - length n1)) by lia.
          by apply operando_valido_shift.
        - replace i with (num_binop l + (i - length n1)) by lia.
          by apply operando_valido_shift. }
      apply list_lookup_singleton_Some in Hx as [Hi3 <-].
      assert (i = num_binop l + num_binop r) as -> by lia.
      exists a1, op, a2. split_and!; [|
        |done..].
      * replace (t + (num_binop l + num_binop r))
          with (t + num_binop l + num_binop r) by lia. reflexivity.
      * rewrite !lookup_app_r by (rewrite ?length_operadores_postorden; lia).
        rewrite !length_operadores_postorden.
        by replace (num_binop l + num_binop r - num_binop l - num_binop r)
          with 0 by lia.
Qed.

(** [generar] raises nothing but [KeyError]. *)
Lemma generar_cases (direcciones : gmap Z str) (nodo : ASTNode) :
  ∀ st, (∃ r, generar direcciones nodo st = Ok r) ∨
        generar direcciones nodo st = Raise KeyError.
Proof.
  induction nodo as [v|op l IHl r IHr]; intros st; cbn [generar].
  - unfold getitem. destruct (direcciones !! v); cbn [mbind res_bind]; eauto.
  - destruct (IHl st) as [[[a1 st1] ->]| ->]; cbn [mbind res_bind]; [|auto].
    destruct (IHr st1) as [[[a2 [i2 t2]] ->]| ->]; cbn [mbind res_bind]; eauto.
Qed.

(** ** The tables read column by column *)

Lemma construir_columnas (nodo : ASTNode)
    (ts : list FilaSimbolo) (tt : list FilaTipo) (s : gmap Z str) :
  construir_tablas_semanticas nodo = Ok (ts, tt, s) →
  ∃ orden, NoDup orden ∧ (∀ v, v ∈ orden ↔ v ∈ hojas nodo) ∧
    size s = length orden ∧
    fs_simbolo <$> ts = str_of_Z <$> orden ∧
    fs_direccion <$> ts = (λ k, dir (S k)) <$> seq 0 (length orden) ∧
    ft_simbolo <$> tt = str_of_Z <$> orden ∧
    ft_tipo <$> tt = replicate (length orden) (py "entero").
Proof.
  rewrite construir_ok. intros [= <- <- <-].
  destruct (visitar_spec nodo) as (Hinv & Hel).
  destruct (visitar nodo (∅, [])) as [s o]. simpl in *.
  destruct Hinv as (Hnd & Hsz & H). simpl in *.
  exists o. split_and!; [done..| | | |].
  - rewrite <- list_fmap_compose. by apply list_fmap_ext.
  - apply list_eq. intros k.
    rewrite <- list_fmap_compose, !list_lookup_fmap.
    destruct (o !! k) as [v|] eqn:Hk; simpl.
    + pose proof (lookup_lt_Some _ _ _ Hk).
      rewrite lookup_seq_lt by done. simpl.
      assert (s !! v = Some (dir (S k))) as -> by (apply H; eauto). done.
    + apply lookup_ge_None in Hk. by rewrite lookup_seq_ge by done.
  - rewrite <- list_fmap_compose. by apply list_fmap_ext.
  - rewrite <- list_fmap_compose. clear. induction o; simpl; [done|].
    by f_equal.
Qed.

(** ** The formatters *)

Lemma join_cons (sep p : str) (ps : list str) :
  ps ≠ [] → join sep (p :: ps) = p ++ sep ++ join sep ps.
Proof. by destruct ps. Qed.

Lemma join_app (sep : str) (a b : list str) :
  a ≠ [] → b ≠ [] → join sep (a ++ b) = join sep a ++ sep ++ join sep b.
Proof.
  intros Ha Hb. induction a as [|p a IH]; [done|].
  destruct a as [|q a].
  - simpl. by destruct b.
  - rewrite <- app_comm_cons, !join_cons by done.
    rewrite IH by done. by rewrite <- !app_assoc.
Qed.

Lemma foldl_append {A : Type} (g : A → str) (l : list A) :
  ∀ acc, foldl (λ partes x, partes ++ [g x]) acc l = acc ++ (g <$> l).
Proof.
  induction l as [|x l IH]; intros acc; simpl; [by rewrite app_nil_r|].
  by rewrite IH, <- app_assoc.
Qed.

Lemma formatear_tokens_join (tokens : list Token) :
  formatear_tokens tokens = join (py " ") (formatear_token <$> tokens).
Proof. unfold formatear_tokens. by rewrite foldl_append. Qed.

Lemma length_lineas (nodo : ASTNode) :
  ∀ nivel, length (lineas nodo nivel) = num_nodos nodo.
Proof.
  induction nodo as [v|op l IHl r IHr]; intros nivel; simpl; [done|].
  by rewrite length_app, IHl, IHr.
Qed.

Lemma lineas_not_nil (nodo : ASTNode) (nivel : nat) : lineas nodo nivel ≠ [].
Proof. by destruct nodo. Qed.

Lemma num_nodos_binop (nodo : ASTNode) :
  num_nodos nodo = 2 * num_binop nodo + 1.
Proof. induction nodo as [v|op l IHl r IHr]; simpl; lia. Qed.

Lemma loop_cases (isdigit isspace : char → bool) (e : str) (f : nat) :
  ∀ p toks,
    match tokenize_loop isdigit isspace f e toks p with
    | Raise (LexerError _ _) | Ok _ | OutOfFuel => True
    | Raise _ => False
    end.
Proof.
  induction f as [|f IH]; intros p toks; [done|].
  rewrite loop_unfold. destruct (drop p e) as [|c r]; [done|].
  destruct (isdigit c); [apply IH|].
  destruct (_TIPOS c); [apply IH|]. destruct (isspace c); [apply IH|done].
Qed.

(** * Further results *)

(** X1. [tokenize] returns a token list exactly when every character of
    the input is a digit, one of + - * / ( ), or whitespace. *)
Theorem tokenize_succeeds_iff_recognised (isdigit isspace : char → bool)
    (self : Lexer) (e : str) :
  (∃ toks, tokenize isdigit isspace self e = Ok toks) ↔
  Forall (λ c, reconocido isdigit isspace c = true) e.
Proof.
  split.
  - intros [toks H]. by apply loop_ok_shape in H as (? & _ & _ & _ & H).
  - intros H.
    destruct (loop_ok_recognised isdigit isspace e (S (length e)) 0 [])
      as (toks & Htoks); [lia | done |]. eauto.
Qed.

(** X2. Every token [tokenize] returns is either a NUMBER whose text is a
    non-empty run of digits with no digit right after it in the input, or
    a single character of [_TIPOS], not a digit, with the kind the table
    gives it. *)
Theorem tokenize_token_shapes (isdigit isspace : char → bool) (self : Lexer)
    (e : str) (toks : list Token) :
  tokenize isdigit isspace self e = Ok toks →
  Forall (token_lexico isdigit e) toks.
Proof.
  intros H. by apply loop_ok_shape in H as (? & -> & H & _).
Qed.

Lemma tokenize_token_shapes_witness :
  tokenize_latin1 mkLexer (py "(12+3)") =
    Ok [mkToken LPAREN (py "(") 0; mkToken NUMBER (py "12") 1;
        mkToken PLUS (py "+") 3; mkToken NUMBER (py "3") 4;
        mkToken RPAREN (py ")") 5] ∧
  Forall (token_lexico isdigit_latin1 (py "(12+3)"))
    [mkToken LPAREN (py "(") 0; mkToken NUMBER (py "12") 1;
     mkToken PLUS (py "+") 3; mkToken NUMBER (py "3") 4;
     mkToken RPAREN (py ")") 5].
Proof.
  split; [reflexivity|].
  apply (tokenize_token_shapes isdigit_latin1 isspace_latin1 mkLexer).
  reflexivity.
Defined.

(** X3. The texts of the tokens, put together in order, are the input
    with every character that is neither a digit nor in [_TIPOS] (the
    whitespace, when [tokenize] succeeds) taken out. *)
Theorem tokenize_texts_concat (isdigit isspace : char → bool) (self : Lexer)
    (e : str) (toks : list Token) :
  tokenize isdigit isspace self e = Ok toks →
  concat (valor <$> toks) =
    filter (λ c, Is_true (significativo isdigit c)) e.
Proof.
  intros H. by apply loop_ok_shape in H as (? & -> & _ & H & _).
Qed.

Lemma tokenize_texts_concat_witness :
  tokenize_latin1 mkLexer (py " 12 + 3 ") =
    Ok [mkToken NUMBER (py "12") 1; mkToken PLUS (py "+") 4;
        mkToken NUMBER (py "3") 6] ∧
  concat (valor <$> [mkToken NUMBER (py "12") 1; mkToken PLUS (py "+") 4;
                     mkToken NUMBER (py "3") 6]) = py "12+3".
Proof.
  split; [reflexivity|].
  apply (tokenize_texts_concat isdigit_latin1 isspace_latin1 mkLexer
           (py " 12 + 3 ")).
  reflexivity.
Defined.

(** What a successful [parse] has read. *)
Lemma parse_ok_structure (int_ : str → option Z)
    (tokens : list Token) (ast : ASTNode) :
  parse int_ tokens = Ok ast →
  hojas ast = numeros int_ tokens ∧
  operadores_inorden ast = operadores_de tokens ∧
  num_binop ast = cuenta_tipos OPERADORES tokens ∧
  cuenta_tipos [LPAREN] tokens = cuenta_tipos [RPAREN] tokens ∧
  Forall (λ t, tipo t ∈ TIPOS_TOKEN) tokens.
Proof.
  unfold parse. destruct tokens as [|t0 ts] eqn:Htok; [done|].
  rewrite <- Htok.
  destruct (_parse_expresion int_ tokens (parse_fuel tokens) 0)
    as [[n j]| |] eqn:HE; cbn [mbind res_bind]; [|done..].
  unfold _al_final. case_bool_decide as Hend; cbn [negb];
    [|by destruct (tokens !! j)].
  intros [= ->].
  destruct (parse_progress int_ tokens (parse_fuel tokens)) as (PE & _).
  apply PE in HE as Hj. assert (j = length tokens) as -> by lia.
  destruct (parse_bien_formado int_ tokens (parse_fuel tokens)) as (BE & _).
  apply BE in HE. rewrite tramo_all in HE.
  destruct HE as (H1 & H2 & H3 & H4). split_and!; [done..| |done|done].
  rewrite num_binop_operadores, <- H2. unfold operadores_de, cuenta_tipos.
  by rewrite length_fmap.
Qed.

(** X4. When [parse] succeeds it has read every token: the leaves of the
    AST are the values of the NUMBER tokens in order, its operators read
    from left to right are the texts of the operator tokens in order (so
    the AST has as many [BinaryOpNode]s as there are operator tokens),
    there are as many '(' as ')' and no token of an unknown kind. *)
Theorem parse_reads_everything (int_ : str → option Z)
    (tokens : list Token) (ast : ASTNode) :
  parse int_ tokens = Ok ast →
  hojas ast = numeros int_ tokens ∧
  operadores_inorden ast = operadores_de tokens ∧
  num_binop ast = cuenta_tipos OPERADORES tokens ∧
  cuenta_tipos [LPAREN] tokens = cuenta_tipos [RPAREN] tokens ∧
  Forall (λ t, tipo t ∈ TIPOS_TOKEN) tokens.
Proof. apply parse_ok_structure. Qed.

Lemma parse_reads_everything_witness :
  hojas (BinaryOpNode (py "*")
           (BinaryOpNode (py "+") (NumberNode 1) (NumberNode 2))
           (NumberNode 3)) = [1%Z; 2%Z; 3%Z] ∧
  num_binop (BinaryOpNode (py "*")
               (BinaryOpNode (py "+") (NumberNode 1) (NumberNode 2))
               (NumberNode 3)) = 2.
Proof.
  destruct (parse_reads_everything int_latin1
              [mkToken LPAREN (py "(") 0; mkToken NUMBER (py "1") 1;
               mkToken PLUS (py "+") 2; mkToken NUMBER (py "2") 3;
               mkToken RPAREN (py ")") 4; mkToken MUL (py "*") 5;
               mkToken NUMBER (py "3") 6]
              (BinaryOpNode (py "*")
                 (BinaryOpNode (py "+") (NumberNode 1) (NumberNode 2))
                 (NumberNode 3)) eq_refl) as (H1 & _ & H3 & _).
  split; [exact H1 | exact H3].
Defined.

(** The answers of [parse]. *)
Lemma parse_answer (int_ : str → option Z) (tokens : list Token) :
  match parse int_ tokens with
  | Ok _ => True
  | Raise (ParserError _ _) => True
  | Raise ValueError =>
      ∃ t, t ∈ tokens ∧ tipo t = NUMBER ∧ int_ (valor t) = None
  | Raise _ => False
  | OutOfFuel => False
  end.
Proof.
  pose proof (parse_total int_ tokens) as Htot.
  assert (respuesta_prevista int_ tokens (parse int_ tokens)) as H.
  { unfold parse. destruct tokens as [|t0 ts] eqn:Htok; [done|].
    rewrite <- Htok.
    destruct (parse_respuesta int_ tokens (parse_fuel tokens)) as (RE & _).
    specialize (RE 0).
    destruct (_parse_expresion int_ tokens (parse_fuel tokens) 0)
      as [[n j]|ex|] eqn:HE; cbn [mbind res_bind]; [|done..].
    unfold _al_final. case_bool_decide as Hend; cbn [negb]; [done|].
    destruct (lookup_lt_is_Some_2 tokens j) as [u ->]; [lia|]. done. }
  destruct (parse int_ tokens) as [a|ex|]; [done| |done].
  by destruct ex.
Qed.

(** X5. [parse] never raises [IndexError]: whatever the token list, every
    access [self._tokens[...]] that [parse] and its helpers make is
    within bounds. And it raises [ValueError] only when [int] rejects the
    text of one of the NUMBER tokens of the list. *)
Theorem parse_error_kinds (int_ : str → option Z) (tokens : list Token) :
  parse int_ tokens ≠ Raise IndexError ∧
  (parse int_ tokens = Raise ValueError →
   ∃ t, t ∈ tokens ∧ tipo t = NUMBER ∧ int_ (valor t) = None).
Proof.
  pose proof (parse_answer int_ tokens) as H.
  split; intros Hp; rewrite Hp in H; done.
Qed.

Lemma parse_error_kinds_witness :
  parse int_latin1 [mkToken NUMBER [178%N] 0] = Raise ValueError ∧
  ∃ t, t ∈ [mkToken NUMBER [178%N] 0] ∧ tipo t = NUMBER ∧
       int_latin1 (valor t) = None.
Proof.
  split; [reflexivity|].
  exact (proj2 (parse_error_kinds int_latin1 [mkToken NUMBER [178%N] 0])
           eq_refl).
Defined.

(** X6. The answer of [parse] is read off a finished run of
    [_parse_expresion] from the first token: if a token is left at the
    index it stops at, "Token inesperado" with the position of that
    token; otherwise the node it built. *)
Theorem parse_trailing_token (int_ : str → option Z) (tokens : list Token)
    (f : nat) (nodo : ASTNode) (j : nat) :
  _parse_expresion int_ tokens f 0 = Ok (nodo, j) →
  parse int_ tokens =
  match tokens !! j with
  | Some t => Raise (mkParserError msg_inesperado (Some (posicion t)))
  | None => Ok nodo
  end.
Proof. apply parse_of_expresion. Qed.

Lemma parse_trailing_token_witness :
  parse int_latin1 [mkToken NUMBER (py "2") 0; mkToken NUMBER (py "3") 2] =
  Raise (mkParserError msg_inesperado (Some 2)).
Proof.
  exact (parse_trailing_token int_latin1
           [mkToken NUMBER (py "2") 0; mkToken NUMBER (py "3") 2]
           3 (NumberNode 2) 1 eq_refl).
Defined.

(** X7. A [ParserError] without position means that the token list is
    empty ("La expresión está vacía") or that it ends with an operator or
    a '(' after which a factor is missing ("Factor no válido"). *)
Theorem parse_error_without_position (int_ : str → option Z)
    (tokens : list Token) (m : str) :
  parse int_ tokens = Raise (ParserError m None) →
  (tokens = [] ∧ m = msg_vacia) ∨
  (m = msg_factor ∧
   ∃ t, last tokens = Some t ∧ tipo t ∈ OPERADORES ++ [LPAREN]).
Proof.
  unfold parse. destruct tokens as [|t0 ts] eqn:Htok.
  { intros [= <-]. by left. }
  rewrite <- Htok. intros H. right.
  destruct (parse_sin_posicion int_ tokens (parse_fuel tokens)) as (SE & _).
  destruct (_parse_expresion int_ tokens (parse_fuel tokens) 0)
    as [[n j]|ex|] eqn:HE; cbn [mbind res_bind] in H; [| |done].
  - destruct (negb (_al_final tokens j)); [|done].
    by destruct (tokens !! j).
  - injection H as ->. destruct (SE 0 m HE) as [-> [Hlen|Hf]]; [|done].
    rewrite Htok in Hlen. simpl in Hlen. lia.
Qed.

Lemma parse_error_without_position_witness :
  parse int_latin1 [mkToken NUMBER (py "2") 0; mkToken PLUS (py "+") 1] =
    Raise (ParserError msg_factor None) ∧
  ∃ t, last [mkToken NUMBER (py "2") 0; mkToken PLUS (py "+") 1] = Some t ∧
       tipo t ∈ OPERADORES ++ [LPAREN].
Proof.
  split; [reflexivity|].
  destruct (parse_error_without_position int_latin1
              [mkToken NUMBER (py "2") 0; mkToken PLUS (py "+") 1]
              msg_factor eq_refl) as [[H _]|[_ H]].
  - discriminate H.
  - exact H.
Defined.

(** X8. When the first token is neither a NUMBER nor a '(' (an operator
    or a ')', say), [parse] raises "Factor no válido" with the position
    of that token. *)
Theorem parse_invalid_first_token (int_ : str → option Z)
    (tokens : list Token) (t : Token) :
  tokens !! 0 = Some t → tipo t ∉ [NUMBER; LPAREN] →
  parse int_ tokens = Raise (mkParserError msg_factor (Some (posicion t))).
Proof.
  intros Ht Htipo. unfold parse.
  destruct tokens as [|t0 ts] eqn:Htok; [done|]. rewrite <- Htok in *.
  unfold parse_fuel.
  replace (3 * length tokens + 3) with (S (S (S (3 * length tokens)))) by lia.
  rewrite E_S, T_S, F_S.
  pose proof (lookup_lt_Some _ _ _ Ht) as Hlt.
  assert (∀ k, k ∈ [NUMBER; LPAREN] → _coincide tokens [k] 0 = false) as Hno.
  { intros k Hk. unfold _coincide, _al_final.
    rewrite bool_decide_eq_false_2, Ht by lia.
    apply bool_decide_eq_false_2. intros Hx%list_elem_of_singleton.
    by rewrite Hx in Htipo. }
  rewrite !Hno by (rewrite !elem_of_cons; tauto).
  unfold _al_final. rewrite bool_decide_eq_false_2 by lia. cbn [negb].
  by rewrite Ht.
Qed.

Lemma parse_invalid_first_token_witness :
  parse int_latin1 [mkToken MUL (py "*") 1; mkToken NUMBER (py "2") 2] =
  Raise (mkParserError msg_factor (Some 1)).
Proof.
  apply (parse_invalid_first_token int_latin1
           [mkToken MUL (py "*") 1; mkToken NUMBER (py "2") 2]
           (mkToken MUL (py "*") 1) eq_refl).
  rewrite !elem_of_cons. intros [H|[H|H]]; [discriminate H..|].
  by apply elem_of_nil in H.
Defined.

(** X9. The tables depend on the literal values in reading order only:
    two ASTs with the same leaves, whatever their operators and shape,
    get the same symbol table, type table and addresses. *)
Theorem tablas_depend_on_leaves (a b : ASTNode) :
  hojas a = hojas b →
  construir_tablas_semanticas a = construir_tablas_semanticas b.
Proof.
  intros H. unfold construir_tablas_semanticas.
  by rewrite !visitar_hojas, H.
Qed.

Lemma tablas_depend_on_leaves_witness :
  construir_tablas_semanticas
    (BinaryOpNode (py "+") (NumberNode 2)
       (BinaryOpNode (py "*") (NumberNode 3) (NumberNode 2))) =
  construir_tablas_semanticas
    (BinaryOpNode (py "-")
       (BinaryOpNode (py "/") (NumberNode 2) (NumberNode 3)) (NumberNode 2)).
Proof.
  exact (tablas_depend_on_leaves
           (BinaryOpNode (py "+") (NumberNode 2)
              (BinaryOpNode (py "*") (NumberNode 3) (NumberNode 2)))
           (BinaryOpNode (py "-")
              (BinaryOpNode (py "/") (NumberNode 2) (NumberNode 3))
              (NumberNode 2)) eq_refl).
Defined.

(** X10. Read by columns, the two tables list the same symbols in the
    same order, the decimal texts of the distinct literal values; the
    addresses are [dir_1], [dir_2], ... in row order; every type is
    "entero"; no symbol and no address appears in two rows; and the
    address map has as many keys as the tables have rows. *)
Theorem tablas_columns (nodo : ASTNode) (ts : list FilaSimbolo)
    (tt : list FilaTipo) (s : gmap Z str) :
  construir_tablas_semanticas nodo = Ok (ts, tt, s) →
  ∃ orden, NoDup orden ∧ (∀ v, v ∈ orden ↔ v ∈ hojas nodo) ∧
    length ts = size s ∧ length tt = size s ∧
    fs_simbolo <$> ts = str_of_Z <$> orden ∧
    ft_simbolo <$> tt = str_of_Z <$> orden ∧
    fs_direccion <$> ts = (λ k, dir (S k)) <$> seq 0 (length ts) ∧
    ft_tipo <$> tt = replicate (length tt) (py "entero") ∧
    NoDup (fs_simbolo <$> ts) ∧ NoDup (fs_direccion <$> ts).
Proof.
  intros H.
  destruct (construir_columnas nodo ts tt s H)
    as (o & Hnd & Hel & Hsz & H1 & H2 & H3 & H4).
  assert (length ts = length o) as Lts
    by (by rewrite <- (length_fmap fs_simbolo), H1, length_fmap).
  assert (length tt = length o) as Ltt
    by (by rewrite <- (length_fmap ft_simbolo), H3, length_fmap).
  exists o. rewrite Lts, Ltt.
  split_and!; [done..| |].
  - rewrite H1. apply NoDup_fmap_2; [|done]. intros x y. apply str_of_Z_inj.
  - rewrite H2. apply NoDup_fmap_2; [|apply NoDup_seq].
    intros x y Hxy%dir_inj. lia.
Qed.

Lemma tablas_columns_witness :
  ∃ ts tt s,
    construir_tablas_semanticas
      (BinaryOpNode (py "+") (NumberNode 7)
         (BinaryOpNode (py "*") (NumberNode 7) (NumberNode 40))) =
      Ok (ts, tt, s) ∧
    length ts = size s ∧
    fs_direccion <$> ts = (λ k, dir (S k)) <$> seq 0 (length ts) ∧
    NoDup (fs_simbolo <$> ts).
Proof.
  eexists _, _, _. split; [apply construir_ok|].
  destruct (tablas_columns _ _ _ _
              (construir_ok
                 (BinaryOpNode (py "+") (NumberNode 7)
                    (BinaryOpNode (py "*") (NumberNode 7) (NumberNode 40)))))
    as (o & _ & _ & H1 & _ & _ & _ & H2 & _ & H3 & _).
  split_and!; [exact H1 | exact H2 | exact H3].
Defined.

(** X11. In the code [generar_codigo_tres_direcciones] returns, the i-th
    instruction (from 0) assigns the temporary [t(i+1)]; its operator is
    the i-th operator of the AST in post-order; each of its two operands
    is an address of the table or a temporary assigned by an earlier
    instruction. The final reference is the address of the leaf when the
    AST is a leaf, and the last temporary otherwise. *)
Theorem generar_temporaries (nodo : ASTNode) (direcciones : gmap Z str)
    (instrucciones : list str) (resultado : str) :
  generar_codigo_tres_direcciones nodo direcciones =
    Ok (instrucciones, resultado) →
  length instrucciones = num_binop nodo ∧
  match nodo with
  | NumberNode v => direcciones !! v = Some resultado
  | BinaryOpNode _ _ _ => resultado = temp (length instrucciones)
  end ∧
  ∀ i x, instrucciones !! i = Some x →
    ∃ izq op der,
      x = temp (S i) ++ py " = " ++ izq ++ py " " ++ op ++ py " " ++ der ∧
      operadores_postorden nodo !! i = Some op ∧
      operando_valido direcciones 1 i izq ∧
      operando_valido direcciones 1 i der.
Proof.
  unfold generar_codigo_tres_direcciones.
  destruct (generar direcciones nodo ([], 1)) as [[ref [ins t]]| |] eqn:H;
    cbn [mbind res_bind]; [|done..].
  intros [= -> ->].
  apply generar_shape in H as (nuevas & [= -> ->] & L & R & _ & I).
  split_and!; [done| |done].
  destruct nodo as [v|op l r]; [done|]. rewrite R, L. f_equal; lia.
Qed.

Lemma generar_temporaries_witness :
  length [py "t1 = dir_1 - dir_2"; py "t2 = t1 - dir_3"] = 2 ∧
  py "t2" = temp 2.
Proof.
  assert (generar_codigo_tres_direcciones
            (BinaryOpNode (py "-")
               (BinaryOpNode (py "-") (NumberNode 8) (NumberNode 3))
               (NumberNode 2))
            (<[8%Z := py "dir_1"]>
               (<[3%Z := py "dir_2"]> (<[2%Z := py "dir_3"]> ∅))) =
          Ok ([py "t1 = dir_1 - dir_2"; py "t2 = t1 - dir_3"], py "t2"))
    as H by (vm_compute; reflexivity).
  destruct (generar_temporaries _ _ _ _ H) as (H1 & H2 & _).
  split; [exact H1 | exact H2].
Defined.

(** X12. [generar_codigo_tres_direcciones] returns a result only when
    every literal value of the AST has an address in the map it is given,
    and it raises [KeyError] only when some literal value has none. *)
Theorem generar_key_error (nodo : ASTNode) (direcciones : gmap Z str) :
  (∀ r, generar_codigo_tres_direcciones nodo direcciones = Ok r →
     ∀ v, v ∈ hojas nodo → is_Some (direcciones !! v)) ∧
  (generar_codigo_tres_direcciones nodo direcciones = Raise KeyError →
   ∃ v, v ∈ hojas nodo ∧ direcciones !! v = None).
Proof.
  unfold generar_codigo_tres_direcciones. split.
  - intros r Hr v Hv.
    destruct (generar direcciones nodo ([], 1)) as [[ref [ins t]]| |] eqn:H;
      cbn [mbind res_bind] in Hr; [|done..].
    apply generar_shape in H as (_ & _ & _ & _ & Hd & _). by apply Hd.
  - intros Hk.
    destruct (decide (Forall (λ v, is_Some (direcciones !! v)) (hojas nodo)))
      as [Hall|Hex].
    + rewrite Forall_forall in Hall.
      destruct (generar_spec direcciones nodo Hall [] 1) as (? & ? & Hok & _).
      rewrite Hok in Hk. done.
    + apply not_Forall_Exists in Hex; [|apply _].
      apply Exists_exists in Hex as (v & Hv & Hn). exists v. split; [done|].
      by apply eq_None_not_Some.
Qed.

Lemma generar_key_error_witness :
  ∃ v, v ∈ hojas (BinaryOpNode (py "+") (NumberNode 1) (NumberNode 2)) ∧
       ({[1%Z := py "dir_1"]} : gmap Z str) !! v = None.
Proof.
  apply (proj2 (generar_key_error
                  (BinaryOpNode (py "+") (NumberNode 1) (NumberNode 2))
                  {[1%Z := py "dir_1"]})).
  vm_compute. reflexivity.
Defined.

(** X13. [formatear_tokens] writes the tokens one after the other with a
    single space in between: nothing for no token, and for two non-empty
    lists put end to end, the two texts with one space between them. *)
Theorem formatear_tokens_app (ts1 ts2 : list Token) :
  formatear_tokens [] = [] ∧
  (ts1 ≠ [] → ts2 ≠ [] →
   formatear_tokens (ts1 ++ ts2) =
     formatear_tokens ts1 ++ py " " ++ formatear_tokens ts2).
Proof.
  split; [done|]. intros H1 H2. rewrite !formatear_tokens_join, fmap_app.
  apply join_app; by destruct ts1, ts2.
Qed.

Lemma formatear_tokens_app_witness :
  formatear_tokens
    ([mkToken NUMBER (py "12") 0] ++
     [mkToken PLUS (py "+") 2; mkToken NUMBER (py "3") 3]) =
  py "<NUMBER, 12> <PLUS> <NUMBER, 3>".
Proof.
  rewrite (proj2 (formatear_tokens_app [mkToken NUMBER (py "12") 0]
                    [mkToken PLUS (py "+") 2; mkToken NUMBER (py "3") 3]));
    [reflexivity | discriminate | discriminate].
Defined.

Lemma str_mul_S_r (s : str) (n : nat) : str_mul s (n + 1) = str_mul s n ++ s.
Proof.
  induction n as [|n IH]; simpl; [by rewrite app_nil_r|].
  by rewrite IH, app_assoc.
Qed.

Lemma lineas_indent (nodo : ASTNode) :
  ∀ nivel, Forall (λ l, str_mul (py "  ") nivel `prefix_of` l)
             (lineas nodo nivel).
Proof.
  induction nodo as [v|op l IHl r IHr]; intros nivel; simpl.
  - constructor; [|constructor]. by apply prefix_app_r.
  - constructor; [by apply prefix_app_r|]. apply Forall_app.
    split; (eapply Forall_impl; [apply IHl || apply IHr|]);
      intros x Hx; (etrans; [|exact Hx]);
      rewrite str_mul_S_r; by apply prefix_app_r.
Qed.

(** X14. [formatear_ast] writes one line per node, the lines separated by
    a line feed with none at the end: a node first, then its left subtree
    and then its right subtree one level deeper; there are twice as many
    lines as [BinaryOpNode]s plus one, and every line starts with two
    spaces per level of the call. *)
Theorem formatear_ast_lines (nodo : ASTNode) (nivel : nat) :
  formatear_ast nodo nivel = join nl (lineas nodo nivel) ∧
  length (lineas nodo nivel) = 2 * num_binop nodo + 1 ∧
  Forall (λ l, str_mul (py "  ") nivel `prefix_of` l) (lineas nodo nivel).
Proof.
  split_and!; [|by rewrite length_lineas, num_nodos_binop|apply lineas_indent].
  revert nivel. induction nodo as [v|op l IHl r IHr]; intros nivel; [done|].
  cbn [formatear_ast lineas]. rewrite IHl, IHr.
  rewrite join_cons, join_app; try apply lineas_not_nil.
  - by rewrite <- !app_assoc.
  - pose proof (lineas_not_nil l (nivel + 1)).
    by destruct (lineas l (nivel + 1)).
Qed.

(** ** The facade and the console *)

Section FacadeMore.

Variable isdigit : char -> bool.
Variable isspace : char -> bool.
Variable int_ : str -> option Z.

Local Abbreviation comp := (compilar isdigit isspace int_).
Local Abbreviation tok := (tokenize isdigit isspace).

Lemma tokenize_cases (self : Lexer) (e : str) :
  match tok self e with
  | Raise (LexerError _ _) | Ok _ => True
  | _ => False
  end.
Proof.
  pose proof (tokenize_total isdigit isspace self e) as Htot.
  pose proof (loop_cases isdigit isspace e (S (length e)) 0 []) as H.
  unfold tokenize in *.
  destruct (tokenize_loop isdigit isspace (S (length e)) e [] 0)
    as [?|[]|]; done.
Qed.

(** The phases behind an answer of [compilar]. *)
Lemma compilar_inv (self : ArithmeticCompiler) (e : str) :
  match (comp self e).1 with
  | Ok b =>
      tok (_lexer self) e = Ok (b_tokens b) ∧
      parse int_ (b_tokens b) = Ok (b_ast b) ∧
      ∃ direcciones,
        construir_tablas_semanticas (b_ast b) =
          Ok (b_tabla_simbolos b, b_tabla_tipos b, direcciones) ∧
        generar_codigo_tres_direcciones (b_ast b) direcciones =
          Ok (b_codigo_tres_direcciones b, b_resultado b)
  | Raise (LexerError i c) => tok (_lexer self) e = Raise (LexerError i c)
  | Raise (ParserError m p) =>
      ∃ toks, tok (_lexer self) e = Ok toks ∧
        parse int_ toks = Raise (ParserError m p)
  | Raise ValueError =>
      ∃ toks t, tok (_lexer self) e = Ok toks ∧ t ∈ toks ∧
        tipo t = NUMBER ∧ int_ (valor t) = None
  | Raise _ => False
  | OutOfFuel => False
  end.
Proof.
  unfold compilar. cbn [fst].
  pose proof (tokenize_cases (_lexer self) e) as Htok.
  destruct (tok (_lexer self) e) as [toks|[]|] eqn:Ht;
    cbn [mbind res_bind]; try done.
  pose proof (parse_answer int_ toks) as Hp.
  destruct (parse int_ toks) as [ast|ex|] eqn:Hparse; cbn [mbind res_bind].
  - rewrite construir_ok. cbn [mbind res_bind].
    destruct (generar_codigo_ok ast) as (instrs & ref & Hg & _).
    rewrite Hg. cbn [mbind res_bind b_tokens b_ast]. split_and!; [done..|].
    eexists. split; [apply construir_ok|]. done.
  - destruct ex; try done; [eauto|].
    destruct Hp as (t & Hp). exists toks, t. by split.
  - done.
Qed.

End FacadeMore.

Section FacadeResults.

Variable isdigit : char -> bool.
Variable isspace : char -> bool.
Variable int_ : str -> option Z.

Local Abbreviation comp := (compilar isdigit isspace int_).
Local Abbreviation tok := (tokenize isdigit isspace).
Local Abbreviation consola := (ejecutar_desde_consola isdigit isspace int_).

Lemma run_len_all (l : str) :
  Forall (λ c, isdigit c = true) l → run_len isdigit l = length l.
Proof.
  induction 1 as [|c l Hc Hl IH]; simpl; [done|]. by rewrite Hc, IH.
Qed.

Lemma compilar_lexer_error (self : ArithmeticCompiler) (e : str) (i : nat)
    (c : char) :
  e !! i = Some c → reconocido isdigit isspace c = false →
  (∀ j d, j < i → e !! j = Some d → reconocido isdigit isspace d = true) →
  (comp self e).1 = Raise (LexerError i c).
Proof.
  intros Hi Hc Hbefore. unfold compilar, tokenize. cbn [fst].
  rewrite (loop_first_unrecognised isdigit isspace e i c Hi Hc Hbefore);
    [done | lia |].
  apply lookup_lt_Some in Hi. lia.
Qed.

(** The sizes of what a successful compilation returns. *)
Lemma compilar_ok_sizes (self : ArithmeticCompiler) (e : str) (b : Bundle) :
  (comp self e).1 = Ok b →
  hojas (b_ast b) = numeros int_ (b_tokens b) ∧
  length (b_codigo_tres_direcciones b) =
    cuenta_tipos OPERADORES (b_tokens b) ∧
  length (b_tabla_simbolos b) =
    size (list_to_set (numeros int_ (b_tokens b)) : gset Z) ∧
  length (b_tabla_tipos b) = length (b_tabla_simbolos b).
Proof.
  intros H. pose proof (compilar_inv isdigit isspace int_ self e) as Hinv.
  rewrite H in Hinv. destruct Hinv as (_ & Hparse & dirs & Hc & Hg).
  apply parse_ok_structure in Hparse as (Hh & _ & Hn & _).
  destruct (construir_columnas _ _ _ _ Hc)
    as (o & Hnd & Hel & _ & H1 & _ & H3 & _).
  assert (length (b_tabla_simbolos b) = length o) as Lts
    by (by rewrite <- (length_fmap fs_simbolo), H1, length_fmap).
  assert (length (b_tabla_tipos b) = length o) as Ltt
    by (by rewrite <- (length_fmap ft_simbolo), H3, length_fmap).
  split_and!; [done| | |congruence].
  - rewrite construir_ok in Hc. injection Hc as _ _ <-.
    destruct (generar_codigo_ok (b_ast b)) as (ins & ref & Hg' & Hl).
    rewrite Hg' in Hg. injection Hg as <- _. by rewrite Hl.
  - rewrite Lts, <- Hh, <- (size_list_to_set (C:=gset Z) o) by done.
    f_equal. apply set_eq. intros x. by rewrite !elem_of_list_to_set.
Qed.

End FacadeResults.

(** X15. When [compilar] returns a bundle, its fields are the results of
    the four phases run one after the other on the input. When it raises
    [LexerError], the lexer raised it; when it raises [ParserError], the
    parser raised it on the tokens of the input; when it raises
    [ValueError], [int] rejected the text of a NUMBER token of the input.
    It never raises [KeyError] or [IndexError]: the address of every
    literal is in the map handed to the generator and every access to
    the token list is within bounds. *)
Theorem compilar_answers (isdigit isspace : char → bool)
    (int_ : str → option Z) (self : ArithmeticCompiler) (e : str) :
  let r := (compilar isdigit isspace int_ self e).1 in
  (∀ b, r = Ok b →
     tokenize isdigit isspace (_lexer self) e = Ok (b_tokens b) ∧
     parse int_ (b_tokens b) = Ok (b_ast b) ∧
     ∃ direcciones,
       construir_tablas_semanticas (b_ast b) =
         Ok (b_tabla_simbolos b, b_tabla_tipos b, direcciones) ∧
       generar_codigo_tres_direcciones (b_ast b) direcciones =
         Ok (b_codigo_tres_direcciones b, b_resultado b)) ∧
  (∀ i c, r = Raise (LexerError i c) →
     tokenize isdigit isspace (_lexer self) e = Raise (LexerError i c)) ∧
  (∀ m p, r = Raise (ParserError m p) →
     ∃ toks, tokenize isdigit isspace (_lexer self) e = Ok toks ∧
       parse int_ toks = Raise (ParserError m p)) ∧
  (r = Raise ValueError →
     ∃ toks t, tokenize isdigit isspace (_lexer self) e = Ok toks ∧
       t ∈ toks ∧ tipo t = NUMBER ∧ int_ (valor t) = None) ∧
  r ≠ Raise KeyError ∧ r ≠ Raise IndexError.
Proof.
  cbv zeta. pose proof (compilar_inv isdigit isspace int_ self e) as H.
  split_and!.
  - intros b Hr. by rewrite Hr in H.
  - intros i c Hr. by rewrite Hr in H.
  - intros m p Hr. by rewrite Hr in H.
  - intros Hr. by rewrite Hr in H.
  - intros Hr. by rewrite Hr in H.
  - intros Hr. by rewrite Hr in H.
Qed.

Lemma compilar_answers_witness :
  ∃ toks, tokenize_latin1 mkLexer (py "2 3") = Ok toks ∧
    parse int_latin1 toks = Raise (mkParserError msg_inesperado (Some 2)).
Proof.
  exact (proj1 (proj2 (proj2 (compilar_answers isdigit_latin1 isspace_latin1
                                int_latin1 ArithmeticCompiler_init
                                (py "2 3")))) _ (Some 2) eq_refl).
Defined.

(** X16. After a successful compilation the AST has the values of the
    NUMBER tokens as leaves, there are as many instructions as operator
    tokens, and each table has as many rows as there are distinct values
    among the NUMBER tokens. *)
Theorem compilar_success_sizes (isdigit isspace : char → bool)
    (int_ : str → option Z) (self : ArithmeticCompiler) (e : str)
    (b : Bundle) :
  (compilar isdigit isspace int_ self e).1 = Ok b →
  hojas (b_ast b) = numeros int_ (b_tokens b) ∧
  length (b_codigo_tres_direcciones b) =
    cuenta_tipos OPERADORES (b_tokens b) ∧
  length (b_tabla_simbolos b) =
    size (list_to_set (numeros int_ (b_tokens b)) : gset Z) ∧
  length (b_tabla_tipos b) = length (b_tabla_simbolos b).
Proof. apply compilar_ok_sizes. Qed.

Lemma compilar_success_sizes_witness :
  ∃ b, compile "(7+2)*7" = Ok b ∧
    hojas (b_ast b) = [7%Z; 2%Z; 7%Z] ∧
    length (b_codigo_tres_direcciones b) = 2 ∧
    length (b_tabla_simbolos b) = 2.
Proof.
  destruct (compile "(7+2)*7") as [b| |] eqn:Hb; [|discriminate Hb..].
  exists b. split; [reflexivity|].
  destruct (compilar_success_sizes isdigit_latin1 isspace_latin1 int_latin1
              ArithmeticCompiler_init (py "(7+2)*7") b Hb)
    as (H1 & H2 & H3 & _).
  injection Hb as <-. split_and!; [exact H1 | exact H2 | exact H3].
Defined.

(** A run of digits that [int] rejects. *)
Lemma compilar_digit_run_value_error (isdigit isspace : char → bool)
    (int_ : str → option Z) (self : ArithmeticCompiler) (e : str) :
  e ≠ [] → Forall (λ c, isdigit c = true) e → int_ e = None →
  (compilar isdigit isspace int_ self e).1 = Raise ValueError.
Proof.
  intros Hne Hall Hint.
  assert (tokenize isdigit isspace (_lexer self) e = Ok [mkToken NUMBER e 0])
    as Htok.
  { unfold tokenize. rewrite loop_unfold, drop_0.
    destruct e as [|c r] eqn:He; [done|]. rewrite <- He in *.
    assert (isdigit c = true) as -> by (rewrite He in Hall; by inversion Hall).
    cbv zeta. rewrite run_len_all by done. rewrite take_ge by done.
    assert (length e = S (length r)) as -> by (by rewrite He).
    rewrite loop_unfold, Nat.add_0_l.
    replace (S (length r)) with (length e) by (by rewrite He).
    by rewrite drop_all. }
  unfold compilar. cbn [fst]. rewrite Htok. cbn [mbind res_bind].
  assert (parse int_ [mkToken NUMBER e 0] = Raise ValueError) as ->; [|done].
  unfold parse, parse_fuel. cbn [length Nat.mul Nat.add].
  rewrite E_S, T_S, F_S.
  assert (_coincide [mkToken NUMBER e 0] [NUMBER] 0 = true) as ->
    by reflexivity.
  cbn [_avanzar lookup list_lookup mbind res_bind valor].
  by rewrite Hint.
Qed.

(** X17. A non-empty input made of characters [isdigit] accepts, whose
    text [int] rejects, makes [compilar] raise [ValueError]: the lexer
    takes it as one NUMBER token and the parser hands it to [int]. *)
Theorem compilar_value_error (isdigit isspace : char → bool)
    (int_ : str → option Z) (self : ArithmeticCompiler) (e : str) :
  e ≠ [] → Forall (λ c, isdigit c = true) e → int_ e = None →
  (compilar isdigit isspace int_ self e).1 = Raise ValueError.
Proof. apply compilar_digit_run_value_error. Qed.

Lemma compilar_value_error_witness :
  (compilar_latin1 ArithmeticCompiler_init [178%N]).1 = Raise ValueError.
Proof.
  apply (compilar_value_error isdigit_latin1 isspace_latin1 int_latin1
           ArithmeticCompiler_init [178%N]); [discriminate | | reflexivity].
  repeat constructor.
Defined.

(** X18. On a line holding a character the lexer has no rule for, the
    console prints exactly one line, "Error léxico: Caracter no
    reconocido 'c' en la posición i.", with the first such character and
    its 0-based position. *)
Theorem consola_lexical_error (isdigit isspace : char → bool)
    (int_ : str → option Z) (e : str) (i : nat) (c : char) :
  e !! i = Some c → reconocido isdigit isspace c = false →
  (∀ j d, j < i → e !! j = Some d → reconocido isdigit isspace d = true) →
  ejecutar_desde_consola isdigit isspace int_ (Some e) =
    Imprime
      [py "Error l" ++ [233%N] ++ py "xico: " ++ py "Caracter no reconocido '"
         ++ [c] ++ py "' en la posici" ++ [243%N] ++ py "n "
         ++ str_of_nat i ++ py "."].
Proof.
  intros Hi Hc Hbefore. unfold ejecutar_desde_consola.
  by rewrite (compilar_lexer_error isdigit isspace int_ _ e i c Hi Hc Hbefore).
Qed.

Lemma consola_lexical_error_witness :
  ejecutar_desde_consola isdigit_latin1 isspace_latin1 int_latin1
    (Some (py "2@3")) =
  Imprime
    [py "Error l" ++ [233%N]
       ++ py "xico: Caracter no reconocido '@' en la posici"
       ++ [243%N] ++ py "n 1."].
Proof.
  refine (consola_lexical_error isdigit_latin1 isspace_latin1 int_latin1
            (py "2@3") 1 (N_of_ascii "@") eq_refl eq_refl _).
  intros j d Hj Hd. destruct j as [|j]; [by injection Hd as <-|lia].
Defined.



(** X20. After a successful compilation the console calls [print] eight
    times (five headings, the tokens, the AST and the final reference)
    plus twice per distinct value among the NUMBER tokens and once per
    operator token; the last call prints "Resultado final en: " followed
    by the final reference. (Some of the strings printed hold line
    feeds: the count is of calls, not of lines of output.) *)
Theorem consola_success_lines (isdigit isspace : char → bool)
    (int_ : str → option Z) (e : str) (b : Bundle) :
  (compilar isdigit isspace int_ ArithmeticCompiler_init e).1 = Ok b →
  ∃ impreso,
    ejecutar_desde_consola isdigit isspace int_ (Some e) = Imprime impreso ∧
    length impreso =
      8 + 2 * size (list_to_set (numeros int_ (b_tokens b)) : gset Z)
        + cuenta_tipos OPERADORES (b_tokens b) ∧
    last impreso = Some (py "Resultado final en: " ++ b_resultado b).
Proof.
  intros H.
  destruct (compilar_ok_sizes isdigit isspace int_ _ e b H)
    as (_ & H2 & H3 & H4).
  unfold ejecutar_desde_consola. rewrite H. eexists. split; [done|]. split.
  - rewrite !length_app, !length_map. cbn [length]. rewrite H4, H2, H3. lia.
  - by rewrite !app_assoc, last_snoc.
Qed.

Lemma consola_success_lines_witness :
  ∃ impreso,
    ejecutar_desde_consola isdigit_latin1 isspace_latin1 int_latin1
      (Some (py "2+3*2")) = Imprime impreso ∧
    length impreso = 14 ∧
    last impreso = Some (py "Resultado final en: t2").
Proof.
  destruct (compilar_latin1 ArithmeticCompiler_init (py "2+3*2")).1
    as [b| |] eqn:Hb; [|discriminate Hb..].
  destruct (consola_success_lines isdigit_latin1 isspace_latin1 int_latin1
              (py "2+3*2") b Hb) as (impreso & H1 & H2 & H3).
  exists impreso. injection Hb as <-.
  split_and!; [exact H1 | exact H2 | exact H3].
Defined.

(** X21. On a line that is empty or made of whitespace only, the console
    prints exactly one line, "Error sintáctico: La expresión está
    vacía": the lexer returns no token and the parser refuses the empty
    list. *)
Theorem consola_blank_line (isdigit isspace : char → bool)
    (int_ : str → option Z) (e : str) :
  Forall (λ c, isdigit c = false ∧ _TIPOS c = None ∧ isspace c = true) e →
  ejecutar_desde_consola isdigit isspace int_ (Some e) =
    Imprime [py "Error sint" ++ [225%N] ++ py "ctico: La expresi" ++ [243%N]
               ++ py "n est" ++ [225%N] ++ py " vac" ++ [237%N] ++ py "a"].
Proof.
  intros Hall.
  assert (tokenize isdigit isspace mkLexer e = Ok []) as Htok.
  { unfold tokenize.
    assert (∀ f p toks, length e - p < f →
              tokenize_loop isdigit isspace f e toks p = Ok toks) as Hloop.
    { induction f as [|f IH]; intros p toks Hf; [lia|].
      rewrite loop_unfold. destruct (drop p e) as [|c r] eqn:Hr; [done|].
      pose proof (drop_cons_length _ _ _ _ Hr) as Hp.
      assert (c ∈ e) as Hc.
      { apply (list_elem_of_lookup_2 e p).
        by rewrite <- (Nat.add_0_r p), <- lookup_drop, Hr. }
      rewrite Forall_forall in Hall. destruct (Hall c Hc) as (-> & -> & ->).
      apply IH. lia. }
    apply Hloop. lia. }
  unfold ejecutar_desde_consola, compilar. cbn [fst _lexer ArithmeticCompiler_init].
  by rewrite Htok.
Qed.

Lemma consola_blank_line_witness :
  ejecutar_desde_consola isdigit_latin1 isspace_latin1 int_latin1
    (Some (py "   ")) =
  Imprime [py "Error sint" ++ [225%N] ++ py "ctico: La expresi" ++ [243%N]
             ++ py "n est" ++ [225%N] ++ py " vac" ++ [237%N] ++ py "a"].
Proof.
  apply (consola_blank_line isdigit_latin1 isspace_latin1 int_latin1
           (py "   ")).
  repeat constructor.
Defined.
